(** * qpass: entry matching, selection and the command line front end

    A shallow embedding of [qpass/cli.py] together with the entry-matching
    and disambiguation engine it drives.  Strings are ASCII strings; a
    string is handled as its list of characters wherever the algorithms
    walk over it. *)

From Stdlib Require Import Ascii String.
From Stdlib Require Import List Bool Arith Lia.
Import ListNotations.

Set Implicit Arguments.

(* ================================================================== *)
(** * Part I: definitions *)
(* ================================================================== *)

(** ** Characters and strings *)

Definition chars := list ascii.

Definition chars_of (s : string) : chars := list_ascii_of_string s.
Arguments chars_of s%_string.

Definition slash : ascii := "/"%char.
Definition newline : ascii := ascii_of_nat 10.

(** [str.lower()] restricted to ASCII: the letters [A-Z] move to [a-z]. *)
Definition lower_char (c : ascii) : ascii :=
  let n := nat_of_ascii c in
  if (65 <=? n) && (n <=? 90) then ascii_of_nat (n + 32) else c.

Definition lower (s : chars) : chars := map lower_char s.

(** [s.split(sep)] for a one-character separator: never the empty list,
    [''.split('/') == ['']] and ['foo/'.split('/') == ['foo', '']]. *)
Fixpoint split_on (sep : ascii) (s : chars) : list chars :=
  match s with
  | [] => [[]]
  | c :: s' =>
      if Ascii.eqb c sep then [] :: split_on sep s'
      else match split_on sep s' with
           | [] => [[c]]
           | seg :: rest => (c :: seg) :: rest
           end
  end.

(** [sep.join(parts)]. *)
Fixpoint join (sep : chars) (parts : list chars) : chars :=
  match parts with
  | [] => []
  | [p] => p
  | p :: rest => p ++ sep ++ join sep rest
  end.

Fixpoint is_prefix (p s : chars) : bool :=
  match p, s with
  | [], _ => true
  | _ :: _, [] => false
  | a :: p', b :: s' => Ascii.eqb a b && is_prefix p' s'
  end.

(** [p in s] on strings: [p] occurs contiguously in [s]. *)
Fixpoint is_substring (p s : chars) : bool :=
  match s with
  | [] => is_prefix p []
  | _ :: s' => is_prefix p s || is_substring p s'
  end.

(** The characters of [p] occur in [s] in the same relative order. *)
Fixpoint is_subsequence (p s : chars) : bool :=
  match p, s with
  | [], _ => true
  | _ :: _, [] => false
  | a :: p', b :: s' =>
      if Ascii.eqb a b then is_subsequence p' s' else is_subsequence p s'
  end.

(** ** Declarative counterparts used in the statements *)

(** [Subseq p s]: [p] is obtained from [s] by deleting elements. *)
Inductive Subseq {A : Type} : list A -> list A -> Prop :=
| Subseq_nil : Subseq [] []
| Subseq_skip : forall p x s, Subseq p s -> Subseq p (x :: s)
| Subseq_take : forall p x s, Subseq p s -> Subseq (x :: p) (x :: s).

Definition Substring {A : Type} (p s : list A) : Prop :=
  exists pre post, s = pre ++ p ++ post.

(** Case-insensitive versions on characters. *)
Definition ci_subsequence (p s : chars) : Prop := Subseq (lower p) (lower s).
Definition ci_substring (p s : chars) : Prop := Substring (lower p) (lower s).

(** [n'] is [n] with the case of some letters changed. *)
Definition case_variant (n' n : chars) : Prop := lower n' = lower n.

(** ** Pattern Matcher *)

Definition EntryName := string.
Definition QueryTerm := string.

Definition is_path_pattern (term : chars) : bool :=
  existsb (Ascii.eqb slash) term.

(** Modelled from the spec: the plain-term mode of [matches] (the
    [PasswordStore] class of [qpass/__init__.py] is absent).  A simple
    case-folded substring test. *)
Definition matches_plain (term name : chars) : bool :=
  is_substring (lower term) (lower name).

(** Modelled from the spec: the path-pattern mode of [matches] (the
    [PasswordStore] class of [qpass/__init__.py] is absent).  The
    sub-patterns must not outnumber the segments; both lists are then
    walked from their last element, each sub-pattern being tested as a
    case-insensitive ordered subsequence of the segment it meets. *)
Definition matches_path (term name : chars) : bool :=
  let subs := split_on slash term in
  let segs := split_on slash name in
  (length subs <=? length segs)
  && forallb (fun ps => is_subsequence (lower (fst ps)) (lower (snd ps)))
             (combine (rev subs) (rev segs)).

(** Modelled from the spec: [matches(term, name)], the Pattern Matcher
    contract (absent from the sources at hand); the mode is selected by
    the shape of [term]. *)
Definition matches (term : QueryTerm) (name : EntryName) : bool :=
  let t := chars_of term in
  let n := chars_of name in
  if is_path_pattern t then matches_path t n else matches_plain t n.
Arguments matches (term name)%_string.

(** ** Query Engine *)

(** Modelled from the spec: [search(terms, catalog)] (the search methods
    of [PasswordStore] are absent): every name of the catalog matched by
    every term, in catalog order. *)
Definition search (terms : list QueryTerm) (catalog : list EntryName)
  : list EntryName :=
  filter (fun name => forallb (fun term => matches term name) terms) catalog.

(** ** Selector *)

(** Modelled from the spec: the error kinds of section 7
    ([qpass/exceptions.py] is absent).  [CollaboratorError] stands for the
    errors surfaced by the backend, the editor or the clipboard. *)
Inductive ErrorKind : Type :=
| InvalidQueryError
| NoMatchError
| SelectionAbortedError
| CollaboratorError.

(** What the injected prompt capability hands back on one invocation: the
    text typed by the user, or the cancellation signal. *)
Inductive PromptReply : Type :=
| Reply (text : string)
| Cancel.
Arguments Reply text%_string.

Inductive Outcome : Type :=
| Resolved (name : EntryName)
| Failed (e : ErrorKind)
| Cancelled.
Arguments Resolved name%_string.

(** The outcome of [resolve] and the number of times it invoked the
    prompt capability. *)
Record Resolution : Type := mkResolution {
  outcome : Outcome;
  prompt_calls : nat
}.

Definition digit_of (c : ascii) : option nat :=
  let n := nat_of_ascii c in
  if (48 <=? n) && (n <=? 57) then Some (n - 48) else None.

Fixpoint parse_digits (acc : nat) (s : chars) : option nat :=
  match s with
  | [] => Some acc
  | c :: s' =>
      match digit_of c with
      | Some d => parse_digits (10 * acc + d) s'
      | None => None
      end
  end.

(** A bare number: one or more decimal digits and nothing else. *)
Definition parse_number (s : chars) : option nat :=
  match s with
  | [] => None
  | _ :: _ => parse_digits 0 s
  end.

(** Modelled from the spec: how a reply selects an entry (the Selector is
    absent from the sources at hand).  Of the two policies the spec
    allows, the numeric one: a bare number selects that position of the
    1-based list; an empty response, text that is no number and a number
    outside [1 .. length matches] select nothing. *)
Definition choose (ms : list EntryName) (text : string) : option EntryName :=
  match parse_number (chars_of text) with
  | Some (S i) => nth_error ms i
  | _ => None
  end.

Definition invalid_reply (ms : list EntryName) (r : PromptReply) : Prop :=
  exists text, r = Reply text /\ choose ms text = None.

Section Selector.
(** The implementation-defined number of re-prompts allowed. *)
Variable retry_bound : nat.
(** The injected capability: the reply to the invocation that [k]
    invocations precede. *)
Variable prompt_fn : nat -> PromptReply.

(** Modelled from the spec: the interactive loop of [resolve], a loop
    with an explicit attempt counter and the injected input capability.
    [calls] counts the invocations made so far. *)
Fixpoint prompt_loop (ms : list EntryName) (retries_left calls : nat)
  : Resolution :=
  match prompt_fn calls with
  | Cancel => mkResolution Cancelled (S calls)
  | Reply text =>
      match choose ms text with
      | Some name => mkResolution (Resolved name) (S calls)
      | None =>
          match retries_left with
          | 0 => mkResolution (Failed SelectionAbortedError) (S calls)
          | S r => prompt_loop ms r (S calls)
          end
      end
  end.

(** Modelled from the spec: [resolve(matches, prompt_fn)], the Selector
    contract (the [select_entry] method of [PasswordStore] is absent). *)
Definition resolve (ms : list EntryName) : Resolution :=
  match ms with
  | [] => mkResolution (Failed NoMatchError) 0
  | [name] => mkResolution (Resolved name) 0
  | _ :: _ :: _ => prompt_loop ms retry_bound 0
  end.
End Selector.

(** A prompt capability for tests: the replies are handed out in order;
    when they are used up the user interrupts. *)
Definition scripted (replies : list string) (k : nat) : PromptReply :=
  match nth_error replies k with
  | Some text => Reply text
  | None => Cancel
  end.

(** ** Effects of the command line front end *)

(** What [cli.py] does to the outside world, in order: what it writes to
    the terminal and which collaborators it calls. *)
Inductive Event : Type :=
| InstallLogging                          (* coloredlogs.install() *)
| IncreaseVerbosity                       (* coloredlogs.increase_verbosity() *)
| DecreaseVerbosity                       (* coloredlogs.decrease_verbosity() *)
| Usage                                   (* usage(__doc__) *)
| Warning (msg : string)                  (* warning("Error: %s", e) *)
| LogError (msg : string)                 (* logger.error("%s", e) *)
| Output (text : string)                  (* output(text) *)
| NewStore (clipboard_enabled : option bool) (directory : option string)
                                          (* PasswordStore with program_opts *)
| SelectEntry (arguments : list string)   (* program.select_entry(arguments...) *)
| SmartSearch (arguments : list string)   (* program.smart_search(arguments...) *)
| FormatEntry (name : EntryName)          (* program.format_entry(name) *)
| CopyPassword (name : EntryName)         (* program.copy_password(name) *)
| Execute (command : list string).        (* program.context.execute(...) *)

(** The exceptions [main] tells apart.  [PasswordStoreError] covers the
    class and its subclasses; [OtherException] any other subclass of
    [Exception]; [KeyboardInterrupt] and [SystemExit] are not subclasses
    of [Exception]. *)
Inductive Exn : Type :=
| PasswordStoreError (kind : ErrorKind) (msg : string)
| KeyboardInterrupt
| SystemExit (code : nat)
| OtherException (msg : string).

Definition is_Exception (e : Exn) : bool :=
  match e with
  | PasswordStoreError _ _ | OtherException _ => true
  | KeyboardInterrupt | SystemExit _ => false
  end.

(** [str(e)]. *)
Definition str_of_exn (e : Exn) : string :=
  match e with
  | PasswordStoreError _ msg => msg
  | OtherException msg => msg
  | KeyboardInterrupt => EmptyString
  | SystemExit _ => EmptyString
  end.

Inductive Result (A : Type) : Type :=
| Return (a : A)
| Raise (e : Exn).
Arguments Return {A} a.
Arguments Raise {A} e.

(** A computation: the events it caused and how it ended. *)
Definition Eff (A : Type) : Type := (list Event * Result A)%type.

Definition ret {A : Type} (a : A) : Eff A := ([], Return a).
Definition raise {A : Type} (e : Exn) : Eff A := ([], Raise e).
Definition emit (ev : Event) : Eff unit := ([ev], Return tt).

(** A call of a collaborator: the call is recorded, its result or its
    exception is the result of the computation. *)
Definition call {A : Type} (ev : Event) (r : Result A) : Eff A := ([ev], r).

Definition bind {A B : Type} (m : Eff A) (k : A -> Eff B) : Eff B :=
  match m with
  | (t, Return a) => let (t', r) := k a in (t ++ t', r)
  | (t, Raise e) => (t, Raise e)
  end.

Notation "x <- m ;; k" := (bind m (fun x => k))
  (at level 61, m at next level, right associativity).
Notation "m ;;; k" := (bind m (fun _ => k))
  (at level 61, right associativity).

(** [try: m except ...]: [handler e] is the body of the clause that
    catches [e], if there is one. *)
Definition try_except {A : Type} (m : Eff A) (handler : Exn -> option (Eff A))
  : Eff A :=
  match m with
  | (t, Return a) => (t, Return a)
  | (t, Raise e) =>
      match handler e with
      | Some h => let (t', r) := h in (t ++ t', r)
      | None => (t, Raise e)
      end
  end.

Definition trace {A : Type} (m : Eff A) : list Event := fst m.
Definition result {A : Type} (m : Eff A) : Result A := snd m.

(** ** The password store as [cli.py] uses it *)

(** The methods of [PasswordStore] that [cli.py] calls; the class itself
    is a collaborator, each method gives a value or raises. *)
Record PasswordStore : Type := mkStore {
  select_entry : list string -> Result EntryName;
  smart_search : list string -> Result (list EntryName);
  format_entry : EntryName -> Result string;
  copy_password : EntryName -> Result unit;
  context_execute : list string -> Result unit
}.

(** ** [cli.py] *)

Definition edit_matching_entry (program : PasswordStore) (arguments : list string)
  : Eff unit :=
  name <- call (SelectEntry arguments) (select_entry program arguments) ;;
  call (Execute ["pass"; "edit"; name]%string)
       (context_execute program ["pass"; "edit"; name]%string).

Definition list_matching_entries (program : PasswordStore) (arguments : list string)
  : Eff unit :=
  names <- call (SmartSearch arguments) (smart_search program arguments) ;;
  emit (Output (String.concat (String newline EmptyString) names)).

Definition show_matching_entry (program : PasswordStore) (arguments : list string)
  : Eff unit :=
  name <- call (SelectEntry arguments) (select_entry program arguments) ;;
  text <- call (FormatEntry name) (format_entry program name) ;;
  emit (Output text) ;;;
  call (CopyPassword name) (copy_password program name).

(** The value of the variable [action]: one of the three functions. *)
Inductive Action : Type :=
| ShowMatchingEntry
| EditMatchingEntry
| ListMatchingEntries.

Definition Action_eqb (a b : Action) : bool :=
  match a, b with
  | ShowMatchingEntry, ShowMatchingEntry
  | EditMatchingEntry, EditMatchingEntry
  | ListMatchingEntries, ListMatchingEntries => true
  | _, _ => false
  end.

(** [action(program, arguments)]. *)
Definition run_action (a : Action) : PasswordStore -> list string -> Eff unit :=
  match a with
  | ShowMatchingEntry => show_matching_entry
  | EditMatchingEntry => edit_matching_entry
  | ListMatchingEntries => list_matching_entries
  end.

(** The dictionary [program_opts]: each key is absent or set. *)
Record ProgramOpts : Type := mkOpts {
  clipboard_enabled : option bool;
  directory : option string
}.

(** The variables the option loop assigns. *)
Record Settings : Type := mkSettings {
  action : Action;
  program_opts : ProgramOpts
}.

(** A block either runs to its end or executes [return]. *)
Inductive Flow (A : Type) : Type :=
| Next (a : A)
| Returned.
Arguments Next {A} a.
Arguments Returned {A}.

Definition option_in (option : string) (names : list string) : bool :=
  existsb (String.eqb option) names.

(** The [for option, value in options] loop of [main]. *)
Fixpoint process_options (options : list (string * string)) (st : Settings)
  : Eff (Flow Settings) :=
  match options with
  | [] => ret (Next st)
  | (option, value) :: rest =>
      if option_in option ["-e"; "--edit"]%string then
        process_options rest (mkSettings EditMatchingEntry (program_opts st))
      else if option_in option ["-l"; "--list"]%string then
        process_options rest (mkSettings ListMatchingEntries (program_opts st))
      else if option_in option ["-n"; "--no-clipboard"]%string then
        process_options rest
          (mkSettings (action st)
                      (mkOpts (Some false) (directory (program_opts st))))
      else if option_in option ["-p"; "--password-store"]%string then
        process_options rest
          (mkSettings (action st)
                      (mkOpts (clipboard_enabled (program_opts st)) (Some value)))
      else if option_in option ["-v"; "--verbose"]%string then
        emit IncreaseVerbosity ;;; process_options rest st
      else if option_in option ["-q"; "--quiet"]%string then
        emit DecreaseVerbosity ;;; process_options rest st
      else if option_in option ["-h"; "--help"]%string then
        emit Usage ;;; ret Returned
      else
        raise (OtherException "Unhandled option! (programming error)")
  end.

Definition initial_settings : Settings :=
  mkSettings ShowMatchingEntry (mkOpts None None).

(** Lines 91-121 of [main]: the first [try] block.  [getopt_result] is
    what [getopt.gnu_getopt(sys.argv[1:], ...)] gave: the parsed options
    and the remaining arguments, or the exception it raised. *)
Definition main_parse
           (getopt_result : Result (list (string * string) * list string))
  : Eff (Flow (Settings * list string)) :=
  try_except
    (parsed <- ([], getopt_result) ;;
     flow <- process_options (fst parsed) initial_settings ;;
     match flow with
     | Returned => ret Returned
     | Next st =>
         let arguments := snd parsed in
         if negb (negb (Nat.eqb (length arguments) 0)
                  || Action_eqb (action st) ListMatchingEntries)
         then emit Usage ;;; ret Returned
         else ret (Next (st, arguments))
     end)
    (fun e =>
       if is_Exception e
       then Some (emit (Warning (String.append "Error: " (str_of_exn e))) ;;;
                  raise (SystemExit 1))
       else None).

(** Lines 122-133 of [main]: the second [try] block.  [new_store] is the
    constructor [PasswordStore with program_opts]. *)
Definition main_execute
           (new_store : ProgramOpts -> Result PasswordStore)
           (st : Settings) (arguments : list string) : Eff unit :=
  try_except
    (program <- call (NewStore (clipboard_enabled (program_opts st))
                               (directory (program_opts st)))
                     (new_store (program_opts st)) ;;
     run_action (action st) program arguments)
    (fun e =>
       match e with
       | PasswordStoreError _ msg =>
           Some (emit (LogError msg) ;;; raise (SystemExit 1))
       | KeyboardInterrupt => Some (raise (SystemExit 1))
       | _ => None
       end).

(** [main()].  It ends by returning, by [sys.exit] (the [SystemExit]
    exception) or with an exception nobody caught. *)
Definition main
           (getopt_result : Result (list (string * string) * list string))
           (new_store : ProgramOpts -> Result PasswordStore) : Eff unit :=
  emit InstallLogging ;;;
  flow <- main_parse getopt_result ;;
  match flow with
  | Returned => ret tt
  | Next (st, arguments) => main_execute new_store st arguments
  end.

(** ** Vocabulary of the statements about [cli.py] *)

(** The events that put a secret on the terminal or in the clipboard. *)
Definition prints_or_copies (ev : Event) : bool :=
  match ev with
  | Output _ | CopyPassword _ => true
  | _ => false
  end.

(** The selection step; the interactive prompt happens inside it. *)
Definition is_selection (ev : Event) : bool :=
  match ev with
  | SelectEntry _ => true
  | _ => false
  end.

(** The action an option assigns, if it assigns one. *)
Definition action_option (opt : string) : option Action :=
  if option_in opt ["-e"; "--edit"]%string then Some EditMatchingEntry
  else if option_in opt ["-l"; "--list"]%string then Some ListMatchingEntries
  else None.

(** The options -n, -p, -v and -q in their short and long spelling. *)
Definition neutral_option (option : string) : bool :=
  option_in option ["-n"; "--no-clipboard"]%string
  || option_in option ["-p"; "--password-store"]%string
  || option_in option ["-v"; "--verbose"]%string
  || option_in option ["-q"; "--quiet"]%string.

(** The action [main] goes on to execute after the first [try] block, if
    it executes one. *)
Definition action_run (parsed : Eff (Flow (Settings * list string)))
  : option Action :=
  match result parsed with
  | Return (Next (st, _)) => Some (action st)
  | _ => None
  end.

(** How the option loop ended, as far as the action is concerned. *)
Definition loop_end (m : Eff (Flow Settings)) : Result (option Action) :=
  match result m with
  | Return (Next st) => Return (Some (action st))
  | Return Returned => Return None
  | Raise e => Raise e
  end.

(** [main] signals an error: it ends with an exception ([sys.exit]
    included) or writes an error message. *)
Definition signals_error (m : Eff unit) : Prop :=
  (exists e, result m = Raise e)
  \/ (exists msg, In (Warning msg) (trace m))
  \/ (exists msg, In (LogError msg) (trace m)).

(** ** Vocabulary of further statements about [main] *)

(** The branch of the [if]/[elif] chain of the option loop that an option
    takes; the tests are made in the order of the source. *)
Inductive OptionKind : Type :=
| KEdit
| KList
| KNoClipboard
| KStore
| KVerbose
| KQuiet
| KHelp
| KUnhandled.

Definition option_kind (opt : string) : OptionKind :=
  if option_in opt ["-e"; "--edit"]%string then KEdit
  else if option_in opt ["-l"; "--list"]%string then KList
  else if option_in opt ["-n"; "--no-clipboard"]%string then KNoClipboard
  else if option_in opt ["-p"; "--password-store"]%string then KStore
  else if option_in opt ["-v"; "--verbose"]%string then KVerbose
  else if option_in opt ["-q"; "--quiet"]%string then KQuiet
  else if option_in opt ["-h"; "--help"]%string then KHelp
  else KUnhandled.

(** The spellings each branch tests for. *)
Definition spellings (k : OptionKind) : list string :=
  match k with
  | KEdit => ["-e"; "--edit"]%string
  | KList => ["-l"; "--list"]%string
  | KNoClipboard => ["-n"; "--no-clipboard"]%string
  | KStore => ["-p"; "--password-store"]%string
  | KVerbose => ["-v"; "--verbose"]%string
  | KQuiet => ["-q"; "--quiet"]%string
  | KHelp => ["-h"; "--help"]%string
  | KUnhandled => []
  end.

(** Every spelling the loop handles. *)
Definition handled_spellings : list string :=
  ["-e"; "--edit"; "-l"; "--list"; "-n"; "--no-clipboard";
   "-p"; "--password-store"; "-v"; "--verbose"; "-q"; "--quiet";
   "-h"; "--help"]%string.

(** What an option does to the logging verbosity. *)
Definition verbosity_events (opt : string) : list Event :=
  if option_in opt ["-v"; "--verbose"]%string then [IncreaseVerbosity]
  else if option_in opt ["-q"; "--quiet"]%string then [DecreaseVerbosity]
  else [].

(** The short spelling of an option given in its long spelling. *)
Definition short_spelling (opt : string) : string :=
  if String.eqb opt "--edit" then "-e"
  else if String.eqb opt "--list" then "-l"
  else if String.eqb opt "--no-clipboard" then "-n"
  else if String.eqb opt "--password-store" then "-p"
  else if String.eqb opt "--verbose" then "-v"
  else if String.eqb opt "--quiet" then "-q"
  else if String.eqb opt "--help" then "-h"
  else opt.

Definition is_store_call (ev : Event) : bool :=
  match ev with
  | NewStore _ _ => true
  | _ => false
  end.

(** The message of the exception the loop raises in its last branch. *)
Definition unhandled_message : string :=
  "Unhandled option! (programming error)".

(** ** The engine behind the store *)

(** Modelled from the spec: a [PasswordStore] whose [smart_search] is the
    Query Engine over a catalog and whose [select_entry] is the Selector
    applied to the result of the search (the class is absent from the
    sources at hand).  Formatting, clipboard and editor are collaborators
    outside the core; here they succeed. *)
Definition engine_store (catalog : list EntryName) (retry_bound : nat)
           (prompt_fn : nat -> PromptReply) : PasswordStore :=
  mkStore
    (fun arguments =>
       match outcome (resolve retry_bound prompt_fn (search arguments catalog)) with
       | Resolved name => Return name
       | Failed e => Raise (PasswordStoreError e "no entry selected")
       | Cancelled => Raise KeyboardInterrupt
       end)
    (fun arguments => Return (search arguments catalog))
    (fun name => Return name)
    (fun _ => Return tt)
    (fun _ => Return tt).

(* ================================================================== *)
(** * Part II: theorems *)
(* ================================================================== *)

Example split_trailing : split_on slash (chars_of "foo/") = [chars_of "foo"; []].
Proof. reflexivity. Qed.

Example scenario_A :
  search ["pe/zbx"%string]
         ["Personal/Zabbix"; "Personal/Email"; "Bank accounts/Creditcard"]%string
  = ["Personal/Zabbix"%string].
Proof. reflexivity. Qed.

Example scenario_B :
  search ["ba/cc"%string]
         ["Personal/Zabbix"; "Personal/Email"; "Bank accounts/Creditcard"]%string
  = ["Bank accounts/Creditcard"%string].
Proof. reflexivity. Qed.

Example subsequence_order_matters :
  matches "a/xy" "a/yx" = false /\ matches "a/xy" "a/xAy" = true.
Proof. split; reflexivity. Qed.

Example scenario_E :
  search ["personal"; "zabbix"]%string
         ["Personal/Zabbix"; "Personal/Email"; "Bank accounts/Creditcard"]%string
  = ["Personal/Zabbix"%string].
Proof. reflexivity. Qed.

(** ** Subsequences and substrings: the tests decide the relations *)

Section SubseqFacts.
Context {A : Type}.

Lemma Subseq_nil_l (s : list A) : Subseq [] s.
Proof. induction s; constructor; assumption. Qed.

Lemma Subseq_refl (s : list A) : Subseq s s.
Proof. induction s; constructor; assumption. Qed.

Lemma Subseq_drop_head (a : A) (p s : list A) :
  Subseq (a :: p) s -> Subseq p s.
Proof.
  intros H. remember (a :: p) as q eqn:Eq. revert a p Eq.
  induction H as [| q x s H IH | q x s H IH]; intros a p' Eq.
  - discriminate.
  - apply Subseq_skip. eapply IH; eassumption.
  - injection Eq as _ ->. apply Subseq_skip. assumption.
Qed.

Lemma Subseq_length (p s : list A) : Subseq p s -> length p <= length s.
Proof. induction 1; simpl; lia. Qed.

Lemma Subseq_In (p s : list A) (x : A) : Subseq p s -> In x p -> In x s.
Proof.
  induction 1 as [| q y s H IH | q y s H IH]; simpl; intros Hin; auto.
  destruct Hin; auto.
Qed.

Lemma Subseq_filter (f : A -> bool) (s : list A) : Subseq (filter f s) s.
Proof.
  induction s as [| x s IH]; simpl.
  - constructor.
  - destruct (f x); constructor; assumption.
Qed.

Lemma Subseq_NoDup (p s : list A) : Subseq p s -> NoDup s -> NoDup p.
Proof.
  induction 1 as [| q y s H IH | q y s H IH]; intros Hnd.
  - constructor.
  - inversion Hnd; subst. auto.
  - inversion Hnd; subst. constructor; auto.
    intros Hin. eapply Subseq_In in Hin; eauto.
Qed.
End SubseqFacts.

Lemma is_subsequence_nil (s : chars) : is_subsequence [] s = true.
Proof. destruct s; reflexivity. Qed.

Lemma is_subsequence_sound (s p : chars) :
  is_subsequence p s = true -> Subseq p s.
Proof.
  revert p. induction s as [| b s IH]; intros [| a p] H; simpl in H.
  - constructor.
  - discriminate.
  - apply Subseq_nil_l.
  - destruct (Ascii.eqb a b) eqn:E.
    + apply Ascii.eqb_eq in E. subst b. apply Subseq_take. auto.
    + apply Subseq_skip. auto.
Qed.

Lemma is_subsequence_complete (s p : chars) :
  Subseq p s -> is_subsequence p s = true.
Proof.
  revert p. induction s as [| b s IH]; intros [| a p] H; simpl; auto.
  - inversion H.
  - destruct (Ascii.eqb a b) eqn:E.
    + apply IH. inversion H; subst.
      * eapply Subseq_drop_head; eassumption.
      * assumption.
    + apply IH. inversion H; subst.
      * assumption.
      * rewrite Ascii.eqb_refl in E. discriminate.
Qed.

Lemma is_subsequence_spec (p s : chars) :
  is_subsequence p s = true <-> Subseq p s.
Proof. split; [apply is_subsequence_sound | apply is_subsequence_complete]. Qed.

Lemma is_prefix_spec (p s : chars) :
  is_prefix p s = true <-> exists post, s = p ++ post.
Proof.
  revert s. induction p as [| a p IH]; intros s; simpl.
  - split; [intros _; exists s; reflexivity | reflexivity].
  - destruct s as [| b s].
    + split; [discriminate | intros [post H]; discriminate].
    + rewrite andb_true_iff, Ascii.eqb_eq, IH. split.
      * intros [-> [post ->]]. exists post. reflexivity.
      * intros [post H]. injection H as -> ->. split; eauto.
Qed.

Lemma is_substring_spec (p s : chars) :
  is_substring p s = true <-> Substring p s.
Proof.
  unfold Substring. induction s as [| b s IH]; simpl.
  - rewrite is_prefix_spec. split.
    + intros [post H]. exists [], post. assumption.
    + intros [pre [post H]]. destruct pre; simpl in H.
      * exists post. assumption.
      * discriminate.
  - rewrite orb_true_iff, IH, is_prefix_spec. split.
    + intros [[post H] | [pre [post H]]].
      * exists [], post. assumption.
      * exists (b :: pre), post. simpl. congruence.
    + intros [[| c pre] [post H]]; simpl in H.
      * left. exists post. assumption.
      * right. injection H as -> ->. eauto.
Qed.

(** ** Right alignment *)

Section RightAligned.
Context {A B : Type}.
Variable f : A * B -> bool.
Variable R : A -> B -> Prop.
Hypothesis f_spec : forall a b, f (a, b) = true <-> R a b.

Lemma forallb_combine_Forall2 (xs : list A) (ys : list B) :
  length xs = length ys ->
  (forallb f (combine xs ys) = true <-> Forall2 R xs ys).
Proof.
  revert ys. induction xs as [| x xs IH]; intros [| y ys] Hlen;
    simpl in *; try discriminate.
  - split; [constructor | reflexivity].
  - injection Hlen as Hlen. rewrite andb_true_iff, f_spec, (IH _ Hlen).
    split.
    + intros [H1 H2]. constructor; assumption.
    + intros H. inversion H; subst. split; assumption.
Qed.

Lemma combine_app_r (xs : list A) (ys zs : list B) :
  length xs = length ys -> combine xs (ys ++ zs) = combine xs ys.
Proof.
  revert ys. induction xs as [| x xs IH]; intros [| y ys] Hlen;
    simpl in *; try discriminate; try reflexivity.
  injection Hlen as Hlen. rewrite (IH _ Hlen). reflexivity.
Qed.

Lemma Forall2_rev_intro (xs : list A) (ys : list B) :
  Forall2 R xs ys -> Forall2 R (rev xs) (rev ys).
Proof.
  induction 1 as [| x y xs ys Hxy H IH]; simpl.
  - constructor.
  - apply Forall2_app; [assumption | repeat constructor; assumption].
Qed.

Lemma Forall2_rev_iff (xs : list A) (ys : list B) :
  Forall2 R (rev xs) (rev ys) <-> Forall2 R xs ys.
Proof.
  split; intros H.
  - apply Forall2_rev_intro in H. rewrite !rev_involutive in H. assumption.
  - apply Forall2_rev_intro. assumption.
Qed.

Lemma Forall2_same_length (xs : list A) (ys : list B) :
  Forall2 R xs ys -> length xs = length ys.
Proof. induction 1; simpl; congruence. Qed.

(** Walking both lists from their last element pairs [xs] with the
    trailing [length xs] elements of [ys]. *)
Lemma right_aligned_spec (xs : list A) (ys : list B) :
  (length xs <=? length ys) && forallb f (combine (rev xs) (rev ys)) = true
  <-> length xs <= length ys
      /\ exists skipped trailing,
           ys = skipped ++ trailing /\ Forall2 R xs trailing.
Proof.
  rewrite andb_true_iff, Nat.leb_le. split.
  - intros [Hle Hall]. split; [assumption |].
    set (k := length ys - length xs).
    exists (firstn k ys), (skipn k ys).
    split; [symmetry; apply firstn_skipn |].
    assert (Hlen : length xs = length (skipn k ys)).
    { rewrite length_skipn. unfold k. lia. }
    rewrite <- (firstn_skipn k ys), rev_app_distr in Hall.
    rewrite combine_app_r in Hall by (rewrite !length_rev; assumption).
    apply forallb_combine_Forall2 in Hall;
      [| rewrite !length_rev; assumption].
    apply Forall2_rev_iff. assumption.
  - intros [Hle [skipped [trailing [-> Hall]]]]. split; [assumption |].
    pose proof (Forall2_same_length Hall) as Hlen.
    rewrite rev_app_distr, combine_app_r by (rewrite !length_rev; assumption).
    apply forallb_combine_Forall2; [rewrite !length_rev; assumption |].
    apply Forall2_rev_iff. assumption.
Qed.
End RightAligned.

(** ** Case folding *)

Lemma lower_char_idem (c : ascii) : lower_char (lower_char c) = lower_char c.
Proof. destruct c as [[] [] [] [] [] [] [] []]; reflexivity. Qed.

Lemma lower_app (s t : chars) : lower (s ++ t) = lower s ++ lower t.
Proof. apply map_app. Qed.

Lemma lower_fixed (s : chars) :
  Forall (fun c => lower_char c = c) s -> lower s = s.
Proof. induction 1; simpl; congruence. Qed.

Lemma lower_is_lowered (s : chars) :
  Forall (fun c => lower_char c = c) (lower s).
Proof.
  induction s; simpl; constructor; auto using lower_char_idem.
Qed.

(** A term occurs case-insensitively in a name exactly when it occurs
    literally in the name with the case of some letters changed. *)
Lemma ci_substring_case_variant (t n : chars) :
  ci_substring t n <-> exists n', case_variant n' n /\ Substring t n'.
Proof.
  unfold ci_substring, case_variant, Substring. split.
  - intros [pre [post H]].
    exists (pre ++ t ++ post). split; [| eauto].
    pose proof (lower_is_lowered n) as Hl. rewrite H in Hl.
    apply Forall_app in Hl. destruct Hl as [Hpre Hl].
    apply Forall_app in Hl. destruct Hl as [_ Hpost].
    rewrite !lower_app, (lower_fixed Hpre), (lower_fixed Hpost).
    symmetry. assumption.
  - intros [n' [Hv [pre [post ->]]]].
    exists (lower pre), (lower post).
    rewrite <- Hv, !lower_app. reflexivity.
Qed.

(** ** Splitting on the separator *)

Lemma is_path_pattern_In (t : chars) :
  is_path_pattern t = true <-> In slash t.
Proof.
  unfold is_path_pattern. rewrite existsb_exists. split.
  - intros [c [Hin Hc]]. apply Ascii.eqb_eq in Hc. subst c. assumption.
  - intros Hin. exists slash. split; [assumption | apply Ascii.eqb_refl].
Qed.

Lemma split_on_not_nil (sep : ascii) (s : chars) : split_on sep s <> [].
Proof.
  destruct s as [| c s]; simpl; [discriminate |].
  destruct (Ascii.eqb c sep); [discriminate |].
  destruct (split_on sep s); discriminate.
Qed.

Lemma split_on_no_sep (sep : ascii) (s : chars) :
  ~ In sep s -> split_on sep s = [s].
Proof.
  induction s as [| c s IH]; simpl; intros Hn; [reflexivity |].
  destruct (Ascii.eqb c sep) eqn:E.
  - apply Ascii.eqb_eq in E. tauto.
  - rewrite IH by tauto. reflexivity.
Qed.

(** The pieces, put together again with the separator, give the string. *)
Lemma join_split_on (sep : ascii) (s : chars) :
  join [sep] (split_on sep s) = s.
Proof.
  induction s as [| c s IH]; simpl; [reflexivity |].
  destruct (Ascii.eqb c sep) eqn:E.
  - apply Ascii.eqb_eq in E. subst c.
    pose proof (split_on_not_nil sep s) as Hn.
    destruct (split_on sep s) as [| seg rest]; [contradiction |].
    simpl. f_equal. exact IH.
  - pose proof (split_on_not_nil sep s) as Hn.
    destruct (split_on sep s) as [| seg rest]; [contradiction |].
    destruct rest; simpl in *; congruence.
Qed.

Lemma matches_path_spec (t n : chars) :
  matches_path t n = true
  <-> length (split_on slash t) <= length (split_on slash n)
      /\ exists skipped trailing,
           split_on slash n = skipped ++ trailing
           /\ Forall2 ci_subsequence (split_on slash t) trailing.
Proof.
  unfold matches_path. cbv zeta.
  apply right_aligned_spec with (R := ci_subsequence).
  intros a b. simpl. apply is_subsequence_spec.
Qed.

(** ** The Pattern Matcher *)

(** C1: for a term with at least one '/', [matches] holds exactly when the
    sub-patterns do not outnumber the segments of the name and each
    sub-pattern, right-aligned against the trailing segments, is a
    case-insensitive ordered subsequence of its segment; an empty
    sub-pattern fits any segment; 'pe/zbx' matches 'Personal/Zabbix',
    'ba/cc' matches 'Bank accounts/Creditcard', and three sub-patterns
    never match a name of two segments. *)
Theorem matches_path_pattern (term : QueryTerm) (name : EntryName) :
  In slash (chars_of term) ->
  let subs := split_on slash (chars_of term) in
  let segs := split_on slash (chars_of name) in
  (matches term name = true
   <-> length subs <= length segs
       /\ exists skipped trailing,
            segs = skipped ++ trailing
            /\ Forall2 ci_subsequence subs trailing)
  /\ (forall seg, ci_subsequence [] seg)
  /\ matches "pe/zbx" "Personal/Zabbix" = true
  /\ matches "ba/cc" "Bank accounts/Creditcard" = true
  /\ (length subs = 3 -> length segs = 2 -> matches term name = false).
Proof.
  intros Hin subs segs. apply is_path_pattern_In in Hin.
  assert (Hm : matches term name = matches_path (chars_of term) (chars_of name)).
  { unfold matches. cbv zeta. rewrite Hin. reflexivity. }
  split; [| split; [| split; [| split]]]; try reflexivity.
  - rewrite Hm. apply matches_path_spec.
  - intros seg. apply Subseq_nil_l.
  - intros H3 H2. rewrite Hm. unfold matches_path. cbv zeta.
    fold subs segs. rewrite H3, H2. reflexivity.
Qed.

Lemma matches_path_pattern_witness :
  (In slash (chars_of "pe/zbx")
   /\ (matches "pe/zbx" "Personal/Zabbix" = true
       <-> 2 <= 2
           /\ exists skipped trailing,
                [chars_of "Personal"; chars_of "Zabbix"] = skipped ++ trailing
                /\ Forall2 ci_subsequence [chars_of "pe"; chars_of "zbx"] trailing))
  /\ (In slash (chars_of "a/b/c")
      /\ matches "a/b/c" "Web/Abc" = false).
Proof.
  assert (Hin : In slash (chars_of "pe/zbx")) by (simpl; tauto).
  assert (Hin' : In slash (chars_of "a/b/c")) by (simpl; tauto).
  split; (split; [assumption |]).
  - exact (proj1 (matches_path_pattern "pe/zbx"%string "Personal/Zabbix"%string Hin)).
  - exact (proj2 (proj2 (proj2 (proj2
             (matches_path_pattern "a/b/c"%string "Web/Abc"%string Hin'))))
             eq_refl eq_refl).
Defined.

(** C2: for a term without '/', [matches] holds exactly when the term
    occurs case-insensitively as a contiguous substring of the name
    (the '/' of the name being a character like any other); when the term
    occurs in no re-casing of the name, [matches] is false. *)
Theorem matches_plain_term (term : QueryTerm) (name : EntryName) :
  ~ In slash (chars_of term) ->
  (matches term name = true <-> ci_substring (chars_of term) (chars_of name))
  /\ ((forall n', case_variant n' (chars_of name)
                  -> ~ Substring (chars_of term) n')
      -> matches term name = false).
Proof.
  intros Hnot.
  assert (Hm : matches term name = matches_plain (chars_of term) (chars_of name)).
  { unfold matches. cbv zeta.
    destruct (is_path_pattern (chars_of term)) eqn:E; [| reflexivity].
    apply is_path_pattern_In in E. contradiction. }
  assert (Hiff : matches term name = true
                 <-> ci_substring (chars_of term) (chars_of name)).
  { rewrite Hm. unfold matches_plain. apply is_substring_spec. }
  split; [exact Hiff |].
  intros Hnone. destruct (matches term name) eqn:E; [| reflexivity].
  exfalso. pose proof (proj1 Hiff eq_refl) as Hci.
  apply ci_substring_case_variant in Hci. destruct Hci as [n' [Hv Hs]].
  exact (Hnone n' Hv Hs).
Qed.

Lemma matches_plain_term_witness :
  (~ In slash (chars_of "ZABBIX")
   /\ (matches "ZABBIX" "Personal/Zabbix" = true
       <-> ci_substring (chars_of "ZABBIX") (chars_of "Personal/Zabbix")))
  /\ (~ In slash (chars_of "q")
      /\ (forall n', case_variant n' (chars_of "A")
                     -> ~ Substring (chars_of "q") n')
      /\ matches "q" "A" = false).
Proof.
  assert (Hnot : ~ In slash (chars_of "ZABBIX")).
  { simpl. intros H. repeat (destruct H as [H | H]; [discriminate H |]).
    exact H. }
  assert (Hnot' : ~ In slash (chars_of "q")).
  { simpl. intros [H | H]; [discriminate H | exact H]. }
  assert (Hnone : forall n', case_variant n' (chars_of "A")
                             -> ~ Substring (chars_of "q") n').
  { intros n' Hv [pre [post Hs]]. subst n'. unfold case_variant in Hv.
    rewrite !lower_app in Hv.
    destruct pre as [| c pre]; simpl in Hv; [discriminate Hv |].
    destruct pre; simpl in Hv; discriminate Hv. }
  split; [split; [exact Hnot |] | split; [exact Hnot' | split; [exact Hnone |]]].
  - exact (proj1 (matches_plain_term "ZABBIX"%string "Personal/Zabbix"%string Hnot)).
  - exact (proj2 (matches_plain_term "q"%string "A"%string Hnot') Hnone).
Defined.

(** ** The Query Engine *)

Lemma Subseq_count_occ {A : Type} (dec : forall x y : A, {x = y} + {x <> y})
      (p s : list A) (x : A) :
  Subseq p s -> count_occ dec p x <= count_occ dec s x.
Proof.
  induction 1 as [| q y s H IH | q y s H IH]; simpl.
  - lia.
  - destruct (dec y x); lia.
  - destruct (dec y x); lia.
Qed.

Lemma search_In (terms : list QueryTerm) (C : list EntryName) (name : EntryName) :
  In name (search terms C)
  <-> In name C /\ forall t, In t terms -> matches t name = true.
Proof.
  unfold search. rewrite filter_In, forallb_forall. reflexivity.
Qed.

Lemma search_cons (t : QueryTerm) (terms : list QueryTerm) (C : list EntryName) :
  search (t :: terms) C = search terms (search [t] C).
Proof.
  unfold search. induction C as [| n C IH]; [reflexivity |].
  simpl in *. destruct (matches t n); simpl; rewrite IH; reflexivity.
Qed.

Lemma search_single (t : QueryTerm) (C : list EntryName) :
  search [t] C = filter (fun n => matches t n) C.
Proof.
  unfold search. apply filter_ext. intros n. simpl. apply andb_true_r.
Qed.

Lemma existsb_eqb_In (n : EntryName) (l : list EntryName) :
  existsb (String.eqb n) l = true <-> In n l.
Proof.
  rewrite existsb_exists. split.
  - intros [m [Hin Hm]]. apply String.eqb_eq in Hm. subst m. assumption.
  - intros Hin. exists n. split; [assumption | apply String.eqb_refl].
Qed.

(** C3: [search] returns exactly the names of the catalog matched by every
    term; with two terms the result is the intersection of the two
    single-term results (as sets of names, and as the list obtained by
    keeping in the first result the names of the second); with no term
    it is the whole catalog. *)
Theorem search_and_semantics
        (terms : list QueryTerm) (T1 T2 : QueryTerm) (C : list EntryName) :
  (forall name,
      In name (search terms C)
      <-> In name C /\ forall t, In t terms -> matches t name = true)
  /\ (forall name,
         In name (search [T1; T2] C)
         <-> In name (search [T1] C) /\ In name (search [T2] C))
  /\ search [T1; T2] C
     = filter (fun n => existsb (String.eqb n) (search [T2] C)) (search [T1] C)
  /\ search [] C = C.
Proof.
  split; [| split; [| split]].
  - intros name. apply search_In.
  - intros name. rewrite !search_In. simpl. split.
    + intros [HC Hall].
      split; (split; [assumption |]); intros t [<- | []]; apply Hall; auto.
    + intros [[HC H1] [_ H2]]. split; [assumption |].
      intros t [<- | [<- | []]]; auto.
  - rewrite search_cons, (search_single T2 (search [T1] C)).
    apply filter_ext_in. intros n Hin.
    apply search_In in Hin. destruct Hin as [HC _].
    destruct (matches T2 n) eqn:E; symmetry.
    + apply existsb_eqb_In. apply search_In. split; [assumption |].
      intros t [<- | []]. assumption.
    + apply not_true_iff_false. intros H. apply existsb_eqb_In in H.
      apply search_In in H. destruct H as [_ H].
      rewrite H in E by (left; reflexivity). discriminate.
  - unfold search. simpl. induction C; simpl; congruence.
Qed.

(** C5: the result of [search] is the catalog with some names left out:
    the order is the catalog's, no name occurs more often than in the
    catalog, a duplicate-free catalog gives a duplicate-free result; the
    result is a function of the query and the catalog alone, and
    searching the result again changes nothing. *)
Theorem search_preserves_order (terms : list QueryTerm) (C : list EntryName) :
  Subseq (search terms C) C
  /\ (forall name,
         count_occ string_dec (search terms C) name
         <= count_occ string_dec C name)
  /\ (NoDup C -> NoDup (search terms C))
  /\ (forall terms' C',
         terms' = terms -> C' = C -> search terms' C' = search terms C)
  /\ search terms (search terms C) = search terms C.
Proof.
  assert (Hsub : Subseq (search terms C) C) by apply Subseq_filter.
  split; [exact Hsub | split; [| split; [| split]]].
  - intros name. apply Subseq_count_occ. exact Hsub.
  - apply Subseq_NoDup. exact Hsub.
  - intros terms' C' -> ->. reflexivity.
  - clear Hsub. unfold search. induction C as [| n C IH]; simpl; [reflexivity |].
    destruct (forallb (fun term => matches term n) terms) eqn:E; simpl.
    + rewrite E. f_equal. exact IH.
    + exact IH.
Qed.

Lemma search_preserves_order_witness :
  let C := ["Personal/Zabbix"; "Personal/Email"; "Bank accounts/Creditcard"]%string in
  NoDup C
  /\ NoDup (search ["personal"%string] C)
  /\ search ["personal"%string] C = ["Personal/Zabbix"; "Personal/Email"]%string.
Proof.
  intros C.
  assert (Hnd : NoDup C).
  { unfold C. repeat constructor; simpl; intros H;
      repeat (destruct H as [H | H]; [discriminate H |]); exact H. }
  split; [exact Hnd | split; [| reflexivity]].
  exact (proj1 (proj2 (proj2 (search_preserves_order ["personal"%string] C))) Hnd).
Defined.

(** ** The Selector *)

Section SelectorFacts.
Variable prompt_fn : nat -> PromptReply.
Variable ms : list EntryName.

Lemma prompt_loop_calls (r c : nat) :
  c < prompt_calls (prompt_loop prompt_fn ms r c).
Proof.
  revert c. induction r as [| r IH]; intros c; simpl.
  - destruct (prompt_fn c) as [text |]; [destruct (choose ms text) |];
      simpl; lia.
  - destruct (prompt_fn c) as [text |]; [destruct (choose ms text) |];
      simpl; try lia.
    specialize (IH (S c)). lia.
Qed.

(** [k] invalid replies in a row use up [k] retries and [k] invocations. *)
Lemma prompt_loop_skip (k r c : nat) :
  (forall j, j < k -> invalid_reply ms (prompt_fn (c + j))) ->
  prompt_loop prompt_fn ms (k + r) c = prompt_loop prompt_fn ms r (c + k).
Proof.
  revert c. induction k as [| k IH]; intros c Hinv.
  - simpl. rewrite Nat.add_0_r. reflexivity.
  - destruct (Hinv 0 ltac:(lia)) as [text [Hr Hc]].
    rewrite Nat.add_0_r in Hr. simpl. rewrite Hr, Hc.
    rewrite IH.
    + f_equal. lia.
    + intros j Hj. replace (S c + j) with (c + S j) by lia.
      apply Hinv. lia.
Qed.

Lemma prompt_loop_aborted (r c : nat) :
  outcome (prompt_loop prompt_fn ms r c) = Failed SelectionAbortedError ->
  prompt_calls (prompt_loop prompt_fn ms r c) = S (c + r)
  /\ forall j, j <= r -> invalid_reply ms (prompt_fn (c + j)).
Proof.
  revert c. induction r as [| r IH]; intros c; simpl.
  - destruct (prompt_fn c) as [text |] eqn:Hr;
      [destruct (choose ms text) eqn:Hc |]; simpl; try discriminate.
    intros _. split; [lia |].
    intros j Hj. replace (c + j) with c by lia. exists text. auto.
  - destruct (prompt_fn c) as [text |] eqn:Hr;
      [destruct (choose ms text) eqn:Hc |]; simpl; try discriminate.
    intros H. destruct (IH _ H) as [Hcalls Hinv]. split; [lia |].
    intros [| j] Hj.
    + rewrite Nat.add_0_r. exists text. auto.
    + replace (c + S j) with (S c + j) by lia. apply Hinv. lia.
Qed.

Lemma choose_unparseable (text : string) :
  parse_number (chars_of text) = None -> choose ms text = None.
Proof. unfold choose. intros ->. reflexivity. Qed.

Lemma choose_out_of_range (text : string) (n : nat) :
  parse_number (chars_of text) = Some n ->
  n = 0 \/ length ms < n -> choose ms text = None.
Proof.
  unfold choose. intros -> [-> | Hn]; [reflexivity |].
  destruct n as [| i]; [reflexivity |].
  apply nth_error_None. lia.
Qed.
End SelectorFacts.

(** C4: [resolve] on no match fails with [NoMatchError] without a prompt;
    on one match it returns the entry and the prompt capability is
    invoked zero times; on two or more matches the capability is invoked
    at least once.  An empty response, text that is no number and a
    number out of range are invalid; after [k] invalid replies, [k]
    within the retry bound, the prompt is issued again and a valid reply
    then resolves; one invalid reply more than the bound allows, and only
    that, fails with [SelectionAbortedError]. *)
Theorem resolve_outcomes
        (retry_bound : nat) (prompt_fn : nat -> PromptReply)
        (ms : list EntryName) :
  let r := resolve retry_bound prompt_fn ms in
  (ms = [] -> r = mkResolution (Failed NoMatchError) 0)
  /\ (forall name, ms = [name] -> r = mkResolution (Resolved name) 0)
  /\ (2 <= length ms -> 1 <= prompt_calls r)
  /\ (choose ms EmptyString = None
      /\ (forall text, parse_number (chars_of text) = None ->
                       choose ms text = None)
      /\ (forall text n, parse_number (chars_of text) = Some n ->
                         n = 0 \/ length ms < n -> choose ms text = None))
  /\ (forall k,
         2 <= length ms -> k <= retry_bound ->
         (forall j, j < k -> invalid_reply ms (prompt_fn j)) ->
         S k <= prompt_calls r
         /\ forall text name,
              prompt_fn k = Reply text -> choose ms text = Some name ->
              r = mkResolution (Resolved name) (S k))
  /\ (2 <= length ms ->
      (forall j, j <= retry_bound -> invalid_reply ms (prompt_fn j)) ->
      r = mkResolution (Failed SelectionAbortedError) (S retry_bound))
  /\ (outcome r = Failed SelectionAbortedError ->
      prompt_calls r = S retry_bound
      /\ forall j, j <= retry_bound -> invalid_reply ms (prompt_fn j)).
Proof.
  intros r.
  assert (Hloop : 2 <= length ms ->
                  r = prompt_loop prompt_fn ms retry_bound 0).
  { unfold r. destruct ms as [| a [| b l]]; simpl; intros H;
      [lia | lia | reflexivity]. }
  split; [| split; [| split; [| split; [| split; [| split]]]]].
  - intros ->. reflexivity.
  - intros name ->. reflexivity.
  - intros H2. rewrite (Hloop H2).
    pose proof (prompt_loop_calls prompt_fn ms retry_bound 0). lia.
  - split; [reflexivity | split].
    + apply choose_unparseable.
    + apply choose_out_of_range.
  - intros k H2 Hk Hinv. rewrite (Hloop H2).
    replace retry_bound with (k + (retry_bound - k)) by lia.
    rewrite prompt_loop_skip by exact Hinv. simpl. split.
    + pose proof (prompt_loop_calls prompt_fn ms (retry_bound - k) k). lia.
    + intros text name Hr Hc.
      destruct (retry_bound - k); simpl; rewrite Hr, Hc; reflexivity.
  - intros H2 Hinv. rewrite (Hloop H2).
    replace retry_bound with (retry_bound + 0) at 1 by lia.
    rewrite prompt_loop_skip by (intros j Hj; apply Hinv; lia).
    simpl. destruct (Hinv retry_bound (le_n _)) as [text [Hr Hc]].
    rewrite Hr, Hc. reflexivity.
  - intros Hab.
    assert (H2 : 2 <= length ms).
    { unfold r in Hab. destruct ms as [| a [| b l]]; simpl in *;
        [discriminate | discriminate | lia]. }
    rewrite (Hloop H2) in *.
    apply prompt_loop_aborted in Hab. exact Hab.
Qed.

Example scenario_C :
  resolve 2 (scripted ["1"%string])
          (search ["personal"%string]
                  ["Personal/Zabbix"; "Personal/Email";
                   "Bank accounts/Creditcard"]%string)
  = mkResolution (Resolved "Personal/Zabbix") 1.
Proof. reflexivity. Qed.

Example scenario_D :
  resolve 2 (scripted [])
          (search ["nonexistent"%string]
                  ["Personal/Zabbix"; "Personal/Email";
                   "Bank accounts/Creditcard"]%string)
  = mkResolution (Failed NoMatchError) 0.
Proof. reflexivity. Qed.

Example cancellation_is_not_retried :
  resolve 2 (scripted ["nine"%string])
          ["Personal/Zabbix"; "Personal/Email"]%string
  = mkResolution Cancelled 2.
Proof. reflexivity. Qed.

Lemma resolve_outcomes_witness :
  let ms := ["Personal/Zabbix"; "Personal/Email"]%string in
  resolve 2 (scripted [EmptyString; "7"; "zabbix"; "1"]%string) ms
  = mkResolution (Failed SelectionAbortedError) 3
  /\ resolve 2 (scripted [EmptyString; "7"; "2"]%string) ms
     = mkResolution (Resolved "Personal/Email") 3
  /\ 1 <= prompt_calls (resolve 2 (scripted ["2"%string]) ms).
Proof.
  intros ms.
  assert (H2 : 2 <= length ms) by (simpl; lia).
  split; [| split].
  - apply (proj1 (proj2 (proj2 (proj2 (proj2 (proj2
             (resolve_outcomes 2 (scripted [EmptyString; "7"; "zabbix"; "1"]%string) ms))))))
             H2).
    intros [| [| [| j]]] Hj; try lia;
      eexists; (split; [reflexivity | reflexivity]).
  - refine (proj2 (proj1 (proj2 (proj2 (proj2 (proj2
             (resolve_outcomes 2 (scripted [EmptyString; "7"; "2"]%string) ms)))))
             2 H2 (le_n 2) _) "2"%string "Personal/Email"%string eq_refl eq_refl).
    intros [| [| j]] Hj; try lia;
      eexists; (split; [reflexivity | reflexivity]).
  - exact (proj1 (proj2 (proj2 (resolve_outcomes 2 (scripted ["2"%string]) ms))) H2).
Defined.

(** ** Computations *)

Lemma bind_emit {A : Type} (ev : Event) (m : Eff A) :
  (emit ev ;;; m) = (ev :: trace m, result m).
Proof. destruct m as [t r]. reflexivity. Qed.

Lemma bind_call_return {A B : Type} (ev : Event) (a : A) (k : A -> Eff B) :
  (x <- call ev (Return a) ;; k x) = (ev :: trace (k a), result (k a)).
Proof. unfold bind, call. destruct (k a) as [t r]. reflexivity. Qed.

Lemma bind_call_raise {A B : Type} (ev : Event) (e : Exn) (k : A -> Eff B) :
  (x <- call ev (Raise e) ;; k x) = ([ev], Raise e).
Proof. reflexivity. Qed.

Lemma bind_trace_result {A B : Type} (m : Eff A) (k : A -> Eff B) (a : A) :
  result m = Return a ->
  (x <- m ;; k x) = (trace m ++ trace (k a), result (k a)).
Proof.
  destruct m as [t r]. simpl. intros ->. simpl.
  destruct (k a) as [t' r']. reflexivity.
Qed.

Lemma bind_raise {A B : Type} (m : Eff A) (k : A -> Eff B) (e : Exn) :
  result m = Raise e -> (x <- m ;; k x) = (trace m, Raise e).
Proof. destruct m as [t r]. simpl. intros ->. reflexivity. Qed.

Lemma eff_eta {A : Type} (m : Eff A) : m = (trace m, result m).
Proof. destruct m. reflexivity. Qed.

(** ** The three actions *)

Lemma show_matching_entry_raise (program : PasswordStore)
      (arguments : list string) (e : Exn) :
  select_entry program arguments = Raise e ->
  show_matching_entry program arguments = ([SelectEntry arguments], Raise e).
Proof. unfold show_matching_entry. intros ->. reflexivity. Qed.

Lemma edit_matching_entry_raise (program : PasswordStore)
      (arguments : list string) (e : Exn) :
  select_entry program arguments = Raise e ->
  edit_matching_entry program arguments = ([SelectEntry arguments], Raise e).
Proof. unfold edit_matching_entry. intros ->. reflexivity. Qed.

Lemma show_matching_entry_return (program : PasswordStore)
      (arguments : list string) (name : EntryName) :
  select_entry program arguments = Return name ->
  show_matching_entry program arguments
  = match format_entry program name with
    | Return text =>
        ([SelectEntry arguments; FormatEntry name; Output text;
          CopyPassword name], copy_password program name)
    | Raise e => ([SelectEntry arguments; FormatEntry name], Raise e)
    end.
Proof.
  unfold show_matching_entry. intros ->. rewrite bind_call_return.
  destruct (format_entry program name); reflexivity.
Qed.

Lemma list_matching_entries_trace (program : PasswordStore)
      (arguments : list string) :
  list_matching_entries program arguments
  = match smart_search program arguments with
    | Return names =>
        ([SmartSearch arguments;
          Output (String.concat (String newline EmptyString) names)],
         Return tt)
    | Raise e => ([SmartSearch arguments], Raise e)
    end.
Proof.
  unfold list_matching_entries.
  destruct (smart_search program arguments); reflexivity.
Qed.

(** ** The option loop *)

Local Arguments option_in : simpl never.

Lemma loop_end_emit (ev : Event) (m : Eff (Flow Settings)) :
  loop_end (emit ev ;;; m) = loop_end m.
Proof. rewrite bind_emit. reflexivity. Qed.

Lemma action_option_step (o v : string) (a : Action)
      (rest : list (string * string)) (st : Settings) :
  action_option o = Some a ->
  process_options ((o, v) :: rest) st
  = process_options rest (mkSettings a (program_opts st)).
Proof.
  unfold action_option. simpl.
  destruct (option_in o ["-e"; "--edit"]%string).
  - intros [= <-]. reflexivity.
  - destruct (option_in o ["-l"; "--list"]%string).
    + intros [= <-]. reflexivity.
    + discriminate.
Qed.

(** An option that assigns no action leaves the action as it is, ends the
    loop with the usage message, or is not handled. *)
Lemma other_option_step (o v : string)
      (rest : list (string * string)) (st : Settings) :
  action_option o = None ->
  (exists st', action st' = action st
               /\ loop_end (process_options ((o, v) :: rest) st)
                  = loop_end (process_options rest st'))
  \/ loop_end (process_options ((o, v) :: rest) st) = Return None
  \/ exists e, loop_end (process_options ((o, v) :: rest) st) = Raise e.
Proof.
  unfold action_option. simpl.
  destruct (option_in o ["-e"; "--edit"]%string); [discriminate |].
  destruct (option_in o ["-l"; "--list"]%string); [discriminate |].
  intros _.
  destruct (option_in o ["-n"; "--no-clipboard"]%string);
    [left; eexists; split; [| reflexivity]; reflexivity |].
  destruct (option_in o ["-p"; "--password-store"]%string);
    [left; eexists; split; [| reflexivity]; reflexivity |].
  destruct (option_in o ["-v"; "--verbose"]%string);
    [left; exists st; split; [reflexivity | apply loop_end_emit] |].
  destruct (option_in o ["-q"; "--quiet"]%string);
    [left; exists st; split; [reflexivity | apply loop_end_emit] |].
  destruct (option_in o ["-h"; "--help"]%string).
  - right. left. reflexivity.
  - right. right. eexists. reflexivity.
Qed.

Lemma loop_keeps_action (options : list (string * string)) (st : Settings)
      (a : Action) :
  Forall (fun ov => action_option (fst ov) = None) options ->
  loop_end (process_options options st) = Return (Some a) ->
  a = action st.
Proof.
  intros Hall. revert st. induction Hall as [| [o v] rest Ho Hall IH]; intros st.
  - simpl. intros [= <-]. reflexivity.
  - simpl in Ho.
    destruct (@other_option_step o v rest st Ho) as [[st' [Ha ->]] | [-> | [e ->]]].
    + intros H. rewrite <- Ha. apply IH. exact H.
    + discriminate.
    + discriminate.
Qed.

Lemma loop_last_action (before after : list (string * string))
      (o v : string) (a a' : Action) (st : Settings) :
  action_option o = Some a ->
  Forall (fun ov => action_option (fst ov) = None) after ->
  loop_end (process_options (before ++ (o, v) :: after) st) = Return (Some a') ->
  a' = a.
Proof.
  intros Ho Hafter. revert st.
  induction before as [| [o1 v1] before IH]; intros st; simpl app.
  - rewrite (@action_option_step o v a after st Ho). intros H.
    apply (@loop_keeps_action after _ a' Hafter) in H. exact H.
  - destruct (action_option o1) as [a1 |] eqn:Ho1.
    + rewrite (@action_option_step o1 v1 a1 _ st Ho1). apply IH.
    + destruct (@other_option_step o1 v1 (before ++ (o, v) :: after) st Ho1)
        as [[st' [Ha ->]] | [-> | [e ->]]].
      * apply IH.
      * discriminate.
      * discriminate.
Qed.

Lemma option_in_In (opt : string) (names : list string) :
  option_in opt names = true <-> In opt names.
Proof. apply existsb_eqb_In. Qed.

Lemma action_option_not_neutral (o : string) (a : Action) :
  action_option o = Some a -> neutral_option o = false.
Proof.
  unfold action_option.
  destruct (option_in o ["-e"; "--edit"]%string) eqn:He.
  - intros _. apply option_in_In in He. simpl in He.
    destruct He as [<- | [<- | []]]; reflexivity.
  - destruct (option_in o ["-l"; "--list"]%string) eqn:Hl; [| discriminate].
    intros _. apply option_in_In in Hl. simpl in Hl.
    destruct Hl as [<- | [<- | []]]; reflexivity.
Qed.

Lemma neutral_option_step (o v : string)
      (rest : list (string * string)) (st : Settings) :
  action_option o = None -> neutral_option o = true ->
  exists st', action st' = action st
              /\ loop_end (process_options ((o, v) :: rest) st)
                 = loop_end (process_options rest st').
Proof.
  unfold action_option, neutral_option. cbn [process_options].
  destruct (option_in o ["-e"; "--edit"]%string); [discriminate |].
  destruct (option_in o ["-l"; "--list"]%string); [discriminate |].
  intros _.
  destruct (option_in o ["-n"; "--no-clipboard"]%string);
    [intros _; eexists; split; [| reflexivity]; reflexivity |].
  destruct (option_in o ["-p"; "--password-store"]%string);
    [intros _; eexists; split; [| reflexivity]; reflexivity |].
  destruct (option_in o ["-v"; "--verbose"]%string);
    [intros _; exists st; split; [reflexivity | apply loop_end_emit] |].
  destruct (option_in o ["-q"; "--quiet"]%string);
    [intros _; exists st; split; [reflexivity | apply loop_end_emit] |].
  discriminate.
Qed.

Lemma help_or_unhandled_step (o v : string)
      (rest : list (string * string)) (st : Settings) :
  action_option o = None -> neutral_option o = false ->
  loop_end (process_options ((o, v) :: rest) st)
  = if option_in o ["-h"; "--help"]%string then Return None
    else Raise (OtherException "Unhandled option! (programming error)").
Proof.
  unfold action_option, neutral_option. cbn [process_options].
  destruct (option_in o ["-e"; "--edit"]%string); [discriminate |].
  destruct (option_in o ["-l"; "--list"]%string); [discriminate |].
  intros _.
  destruct (option_in o ["-n"; "--no-clipboard"]%string); [discriminate |].
  destruct (option_in o ["-p"; "--password-store"]%string); [discriminate |].
  destruct (option_in o ["-v"; "--verbose"]%string); [discriminate |].
  destruct (option_in o ["-q"; "--quiet"]%string); [discriminate |].
  intros _.
  destruct (option_in o ["-h"; "--help"]%string); reflexivity.
Qed.

(** Leaving out the options -n, -p, -v and -q changes neither the action
    nor whether the loop runs to its end. *)
Lemma loop_ignores_neutral (options : list (string * string))
      (st st' : Settings) :
  action st = action st' ->
  loop_end (process_options
              (filter (fun ov => negb (neutral_option (fst ov))) options) st')
  = loop_end (process_options options st).
Proof.
  revert st st'. induction options as [| [o v] rest IH]; intros st st' Ha.
  - simpl. unfold loop_end. simpl. rewrite Ha. reflexivity.
  - cbn [filter fst].
    destruct (action_option o) as [a |] eqn:Ho.
    + rewrite (@action_option_not_neutral o a Ho). cbn [negb].
      rewrite !(@action_option_step o v a _ _ Ho). apply IH. reflexivity.
    + destruct (neutral_option o) eqn:Hn; cbn [negb].
      * destruct (@neutral_option_step o v rest st Ho Hn) as [st1 [Ha1 ->]].
        apply IH. congruence.
      * rewrite !(@help_or_unhandled_step o v _ _ Ho Hn). reflexivity.
Qed.

(** ** [main] *)

(** The first [try] block in terms of the option loop. *)
Lemma main_parse_loop (options : list (string * string))
      (arguments : list string) :
  main_parse (Return (options, arguments))
  = let loop := process_options options initial_settings in
    match result loop with
    | Return (Next st) =>
        if negb (negb (Nat.eqb (length arguments) 0)
                 || Action_eqb (action st) ListMatchingEntries)
        then (trace loop ++ [Usage], Return Returned)
        else (trace loop, Return (Next (st, arguments)))
    | Return Returned => (trace loop, Return Returned)
    | Raise e =>
        if is_Exception e
        then (trace loop ++ [Warning (String.append "Error: " (str_of_exn e))],
              Raise (SystemExit 1))
        else (trace loop, Raise e)
    end.
Proof.
  unfold main_parse. cbv zeta. cbn [bind fst snd app].
  destruct (process_options options initial_settings) as [t [[st |] | e]];
    simpl.
  - destruct (negb (negb (Nat.eqb (length arguments) 0)
                    || Action_eqb (action st) ListMatchingEntries));
      simpl; rewrite ?app_nil_r; reflexivity.
  - rewrite app_nil_r. reflexivity.
  - destruct (is_Exception e); reflexivity.
Qed.

Lemma action_run_loop (options : list (string * string))
      (arguments : list string) :
  action_run (main_parse (Return (options, arguments)))
  = match loop_end (process_options options initial_settings) with
    | Return (Some a) =>
        if negb (negb (Nat.eqb (length arguments) 0)
                 || Action_eqb a ListMatchingEntries)
        then None else Some a
    | _ => None
    end.
Proof.
  rewrite main_parse_loop. cbv zeta. unfold action_run, loop_end.
  destruct (result (process_options options initial_settings)) as [[st |] | e].
  - destruct (negb (negb (Nat.eqb (length arguments) 0)
                    || Action_eqb (action st) ListMatchingEntries));
      reflexivity.
  - reflexivity.
  - destruct (is_Exception e); reflexivity.
Qed.

Lemma main_unfold (getopt_result : Result (list (string * string) * list string))
      (new_store : ProgramOpts -> Result PasswordStore) :
  main getopt_result new_store
  = let parsed := main_parse getopt_result in
    match result parsed with
    | Return (Next (st, arguments)) =>
        (InstallLogging
           :: trace parsed ++ trace (main_execute new_store st arguments),
         result (main_execute new_store st arguments))
    | Return Returned => (InstallLogging :: trace parsed, Return tt)
    | Raise e => (InstallLogging :: trace parsed, Raise e)
    end.
Proof.
  unfold main. rewrite bind_emit. cbv zeta.
  destruct (main_parse getopt_result) as [t [[[st arguments] |] | e]]; simpl.
  - destruct (main_execute new_store st arguments). reflexivity.
  - rewrite app_nil_r. reflexivity.
  - reflexivity.
Qed.

(** The second [try] block once the store is there. *)
Lemma main_execute_action (new_store : ProgramOpts -> Result PasswordStore)
      (st : Settings) (arguments : list string) (program : PasswordStore) :
  new_store (program_opts st) = Return program ->
  main_execute new_store st arguments
  = let run := run_action (action st) program arguments in
    let made := NewStore (clipboard_enabled (program_opts st))
                         (directory (program_opts st)) in
    match result run with
    | Return u => (made :: trace run, Return u)
    | Raise (PasswordStoreError _ msg) =>
        (made :: trace run ++ [LogError msg], Raise (SystemExit 1))
    | Raise KeyboardInterrupt => (made :: trace run, Raise (SystemExit 1))
    | Raise e => (made :: trace run, Raise e)
    end.
Proof.
  intros Hs. unfold main_execute. rewrite Hs, bind_call_return. cbv zeta.
  destruct (run_action (action st) program arguments) as [t [u | e]]; simpl.
  - reflexivity.
  - destruct e; simpl; rewrite ?app_nil_r; reflexivity.
Qed.

(** C10: the action defaults to [show_matching_entry]; the last of the
    options -e/--edit and -l/--list, in the order of the parsed options,
    decides which action [main] runs; leaving out -n, -p, -v and -q
    options changes nothing about it; and the action decided is the one
    the second [try] block executes. *)
Theorem last_action_option_wins
        (options : list (string * string)) (arguments : list string) :
  let parsed := main_parse (Return (options, arguments)) in
  (forall a,
      Forall (fun ov => action_option (fst ov) = None) options ->
      action_run parsed = Some a -> a = ShowMatchingEntry)
  /\ (forall before o v after a a',
         options = before ++ (o, v) :: after ->
         action_option o = Some a ->
         Forall (fun ov => action_option (fst ov) = None) after ->
         action_run parsed = Some a' -> a' = a)
  /\ action_run
       (main_parse
          (Return (filter (fun ov => negb (neutral_option (fst ov))) options,
                   arguments)))
     = action_run parsed
  /\ (forall a new_store,
         action_run parsed = Some a ->
         exists st,
           action st = a
           /\ result parsed = Return (Next (st, arguments))
           /\ main (Return (options, arguments)) new_store
              = (InstallLogging
                   :: trace parsed
                      ++ trace (main_execute new_store st arguments),
                 result (main_execute new_store st arguments))).
Proof.
  intros parsed. unfold parsed.
  assert (Hrun : forall a,
             action_run (main_parse (Return (options, arguments))) = Some a ->
             loop_end (process_options options initial_settings)
             = Return (Some a)).
  { intros a. rewrite action_run_loop.
    destruct (loop_end (process_options options initial_settings))
      as [[a0 |] | e]; try discriminate.
    destruct (negb (negb (Nat.eqb (length arguments) 0)
                    || Action_eqb a0 ListMatchingEntries)); [discriminate |].
    intros [= <-]. reflexivity. }
  split; [| split; [| split]].
  - intros a Hall H. apply Hrun in H.
    apply (@loop_keeps_action options initial_settings a Hall) in H. exact H.
  - intros before o v after a a' -> Ho Hafter H. apply Hrun in H.
    exact (@loop_last_action before after o v a a' initial_settings Ho Hafter H).
  - rewrite !action_run_loop.
    rewrite (@loop_ignores_neutral options initial_settings initial_settings eq_refl).
    reflexivity.
  - intros a new_store H. rewrite main_unfold. cbv zeta.
    unfold action_run in H.
    destruct (result (main_parse (Return (options, arguments))))
      as [[[st args] |] | e] eqn:Hres; try discriminate.
    injection H as <-.
    assert (args = arguments) as ->.
    { rewrite main_parse_loop in Hres. cbv zeta in Hres. unfold result in Hres.
      destruct (snd (process_options options initial_settings)) as [[st0 |] | e];
        [ destruct (negb (negb (Nat.eqb (length arguments) 0)
                          || Action_eqb (action st0) ListMatchingEntries))
        | | destruct (is_Exception e) ];
        simpl in Hres; congruence. }
    exists st. repeat split.
Qed.

(** The option loop writes nothing but verbosity changes and the usage
    message. *)
Lemma loop_trace_events (options : list (string * string)) (st : Settings) :
  Forall (fun ev => ev = IncreaseVerbosity \/ ev = DecreaseVerbosity
                    \/ ev = Usage)
         (trace (process_options options st)).
Proof.
  revert st. induction options as [| [o v] rest IH]; intros st.
  - constructor.
  - cbn [process_options].
    destruct (option_in o ["-e"; "--edit"]%string); [apply IH |].
    destruct (option_in o ["-l"; "--list"]%string); [apply IH |].
    destruct (option_in o ["-n"; "--no-clipboard"]%string); [apply IH |].
    destruct (option_in o ["-p"; "--password-store"]%string); [apply IH |].
    destruct (option_in o ["-v"; "--verbose"]%string);
      [rewrite bind_emit; constructor; [tauto | apply IH] |].
    destruct (option_in o ["-q"; "--quiet"]%string);
      [rewrite bind_emit; constructor; [tauto | apply IH] |].
    destruct (option_in o ["-h"; "--help"]%string).
    + rewrite bind_emit. constructor; [tauto | constructor].
    + constructor.
Qed.

Lemma loop_trace_In (options : list (string * string)) (st : Settings)
      (ev : Event) :
  In ev (trace (process_options options st)) ->
  ev = IncreaseVerbosity \/ ev = DecreaseVerbosity \/ ev = Usage.
Proof.
  intros Hin. pose proof (loop_trace_events options st) as Hall.
  rewrite Forall_forall in Hall. apply Hall. exact Hin.
Qed.

Lemma main_empty_query (options : list (string * string))
      (new_store : ProgramOpts -> Result PasswordStore) (st : Settings) :
  result (process_options options initial_settings) = Return (Next st) ->
  action st <> ListMatchingEntries ->
  main (Return (options, [])) new_store
  = (InstallLogging :: trace (process_options options initial_settings)
                    ++ [Usage],
     Return tt).
Proof.
  intros Hloop Hact. rewrite main_unfold, main_parse_loop. cbv zeta.
  rewrite Hloop.
  assert (Action_eqb (action st) ListMatchingEntries = false) as ->.
  { destruct (action st); try reflexivity. contradiction. }
  reflexivity.
Qed.

Lemma main_runs_action (options : list (string * string))
      (arguments : list string)
      (new_store : ProgramOpts -> Result PasswordStore) (st : Settings) :
  result (process_options options initial_settings) = Return (Next st) ->
  arguments <> [] \/ action st = ListMatchingEntries ->
  main (Return (options, arguments)) new_store
  = (InstallLogging :: trace (process_options options initial_settings)
                    ++ trace (main_execute new_store st arguments),
     result (main_execute new_store st arguments)).
Proof.
  intros Hloop Hok. rewrite main_unfold, main_parse_loop. cbv zeta.
  rewrite Hloop.
  assert (negb (negb (Nat.eqb (length arguments) 0)
                || Action_eqb (action st) ListMatchingEntries) = false) as ->.
  { destruct Hok as [Hne | ->].
    - destruct arguments; [contradiction | reflexivity].
    - rewrite orb_true_r. reflexivity. }
  reflexivity.
Qed.

(** C6, as the code has it: with an empty query and the reveal or the
    edit action [main] prints the usage message and returns; it resolves
    nothing and signals no error.  An empty query is accepted for the
    list action only, which then lists what [smart_search] gives for no
    term; for the Query Engine that is the whole catalog. *)
Theorem empty_query_shows_usage
        (options : list (string * string))
        (new_store : ProgramOpts -> Result PasswordStore) (st : Settings) :
  result (process_options options initial_settings) = Return (Next st) ->
  let loop := process_options options initial_settings in
  let m := main (Return (options, [])) new_store in
  (action st <> ListMatchingEntries ->
   m = (InstallLogging :: trace loop ++ [Usage], Return tt)
   /\ ~ signals_error m
   /\ Forall (fun ev => is_selection ev = false) (trace m))
  /\ (action st = ListMatchingEntries ->
      forall program names,
        new_store (program_opts st) = Return program ->
        smart_search program [] = Return names ->
        m = (InstallLogging
               :: trace loop
                  ++ [NewStore (clipboard_enabled (program_opts st))
                               (directory (program_opts st));
                      SmartSearch [];
                      Output (String.concat (String newline EmptyString) names)],
             Return tt))
  /\ (forall catalog, search [] catalog = catalog).
Proof.
  intros Hloop loop m. split; [| split].
  - intros Hact.
    assert (Hm : m = (InstallLogging :: trace loop ++ [Usage], Return tt))
      by exact (@main_empty_query options new_store st Hloop Hact).
    split; [exact Hm |].
    assert (Hev : forall ev, In ev (trace m) ->
                             ev = InstallLogging \/ ev = IncreaseVerbosity
                             \/ ev = DecreaseVerbosity \/ ev = Usage).
    { intros ev. rewrite Hm. simpl. rewrite in_app_iff. simpl.
      intros [<- | [Hin | [<- | []]]]; auto.
      apply loop_trace_In in Hin. tauto. }
    split.
    + intros [[e He] | [[msg Hin] | [msg Hin]]].
      * rewrite Hm in He. discriminate.
      * apply Hev in Hin. destruct Hin as [H | [H | [H | H]]]; discriminate.
      * apply Hev in Hin. destruct Hin as [H | [H | [H | H]]]; discriminate.
    + apply Forall_forall. intros ev Hin. apply Hev in Hin.
      destruct Hin as [-> | [-> | [-> | ->]]]; reflexivity.
  - intros Hact program names Hs Hnames. unfold m.
    rewrite (@main_runs_action options [] new_store st Hloop (or_intror Hact)).
    rewrite (@main_execute_action new_store st [] program Hs). cbv zeta.
    rewrite Hact. cbn [run_action].
    rewrite list_matching_entries_trace, Hnames. reflexivity.
  - intros catalog. unfold search. simpl.
    induction catalog; simpl; congruence.
Qed.

Lemma empty_query_shows_usage_witness :
  let no_store := fun _ : ProgramOpts => Raise (OtherException "no store") in
  main (Return ([("-v", EmptyString); ("-e", EmptyString)]%string, [])) no_store
  = ([InstallLogging; IncreaseVerbosity; Usage], Return tt)
  /\ main (Return ([("-l", EmptyString)]%string, []))
          (fun _ => Return (engine_store ["Personal/Zabbix"; "Personal/Email"]%string
                                         2 (scripted [])))
     = ([InstallLogging; NewStore None None; SmartSearch [];
         Output (String.concat (String newline EmptyString)
                               ["Personal/Zabbix"; "Personal/Email"]%string)],
        Return tt).
Proof.
  intros no_store. split.
  - refine (proj1 (proj1 (@empty_query_shows_usage
                            [("-v", EmptyString); ("-e", EmptyString)]%string no_store
                            (mkSettings EditMatchingEntry (mkOpts None None))
                            eq_refl) _)).
    discriminate.
  - exact (proj1 (proj2 (@empty_query_shows_usage
                           [("-l", EmptyString)]%string _
                           (mkSettings ListMatchingEntries (mkOpts None None))
                           eq_refl))
                 eq_refl
                 (engine_store ["Personal/Zabbix"; "Personal/Email"]%string
                               2 (scripted []))
                 ["Personal/Zabbix"; "Personal/Email"]%string
                 eq_refl eq_refl).
Defined.

(** The claim C6 as the spec words it fails: with no option and no
    keyword (the reveal action, empty query), and likewise under -e,
    [main] prints the usage message and returns normally; no error is
    signalled. *)
Lemma empty_query_is_no_error :
  let no_store := fun _ : ProgramOpts => Raise (OtherException "no store") in
  (main (Return ([], [])) no_store = ([InstallLogging; Usage], Return tt)
   /\ ~ signals_error (main (Return ([], [])) no_store))
  /\ (main (Return ([("-e", EmptyString)]%string, [])) no_store
      = ([InstallLogging; Usage], Return tt)
      /\ ~ signals_error (main (Return ([("-e", EmptyString)]%string, [])) no_store)).
Proof.
  intros no_store.
  assert (Hquiet : ~ signals_error ([InstallLogging; Usage], Return tt)).
  { intros [[e He] | [[msg Hin] | [msg Hin]]].
    - discriminate He.
    - simpl in Hin. destruct Hin as [H | [H | []]]; discriminate H.
    - simpl in Hin. destruct Hin as [H | [H | []]]; discriminate H. }
  split; (split; [reflexivity | exact Hquiet]).
Qed.

(** ** Selection failures and the reveal action *)

Lemma main_selection_raises (program : PasswordStore) (arguments : list string)
      (e : Exn) (options : list (string * string))
      (new_store : ProgramOpts -> Result PasswordStore) (st : Settings) :
  action st = ShowMatchingEntry \/ action st = EditMatchingEntry ->
  select_entry program arguments = Raise e ->
  result (process_options options initial_settings) = Return (Next st) ->
  arguments <> [] ->
  new_store (program_opts st) = Return program ->
  main (Return (options, arguments)) new_store
  = let made := NewStore (clipboard_enabled (program_opts st))
                         (directory (program_opts st)) in
    let loop := process_options options initial_settings in
    match e with
    | PasswordStoreError _ msg =>
        (InstallLogging
           :: trace loop ++ [made; SelectEntry arguments; LogError msg],
         Raise (SystemExit 1))
    | KeyboardInterrupt =>
        (InstallLogging :: trace loop ++ [made; SelectEntry arguments],
         Raise (SystemExit 1))
    | _ =>
        (InstallLogging :: trace loop ++ [made; SelectEntry arguments],
         Raise e)
    end.
Proof.
  intros Hact Hsel Hloop Hne Hs.
  rewrite (@main_runs_action options arguments new_store st Hloop (or_introl Hne)).
  rewrite (@main_execute_action new_store st arguments program Hs). cbv zeta.
  assert (run_action (action st) program arguments
          = ([SelectEntry arguments], Raise e)) as ->.
  { destruct Hact as [-> | ->]; cbn [run_action].
    - apply show_matching_entry_raise. exact Hsel.
    - apply edit_matching_entry_raise. exact Hsel. }
  destruct e; reflexivity.
Qed.

(** C7: the reveal action starts with the selection; when the selection
    raises, whatever the exception, nothing else happens in
    [show_matching_entry]; an output or a clipboard copy in its trace
    means that the selection returned an entry.  In [main], after a
    selection that raised, no output and no clipboard copy occurs, and
    after an interrupt [main] leaves through [sys.exit(1)] without a
    further event. *)
Theorem aborted_selection_reveals_nothing
        (program : PasswordStore) (arguments : list string) :
  let shown := show_matching_entry program arguments in
  (exists rest, trace shown = SelectEntry arguments :: rest)
  /\ (forall e, select_entry program arguments = Raise e ->
                shown = ([SelectEntry arguments], Raise e))
  /\ (forall ev, In ev (trace shown) -> prints_or_copies ev = true ->
                 exists name, select_entry program arguments = Return name)
  /\ (forall e options new_store st,
         select_entry program arguments = Raise e ->
         result (process_options options initial_settings) = Return (Next st) ->
         action st = ShowMatchingEntry ->
         arguments <> [] ->
         new_store (program_opts st) = Return program ->
         let m := main (Return (options, arguments)) new_store in
         Forall (fun ev => prints_or_copies ev = false) (trace m)
         /\ (e = KeyboardInterrupt ->
             m = (InstallLogging
                    :: trace (process_options options initial_settings)
                       ++ [NewStore (clipboard_enabled (program_opts st))
                                    (directory (program_opts st));
                           SelectEntry arguments],
                  Raise (SystemExit 1)))).
Proof.
  intros shown. unfold shown. split; [| split; [| split]].
  - destruct (select_entry program arguments) as [name | e] eqn:Hsel.
    + rewrite (show_matching_entry_return _ _ Hsel).
      destruct (format_entry program name); eexists; reflexivity.
    + rewrite (show_matching_entry_raise _ _ Hsel). eexists. reflexivity.
  - intros e Hsel. apply show_matching_entry_raise. exact Hsel.
  - intros ev Hin Hev.
    destruct (select_entry program arguments) as [name | e] eqn:Hsel.
    + exists name. reflexivity.
    + rewrite (show_matching_entry_raise _ _ Hsel) in Hin. simpl in Hin.
      destruct Hin as [<- | []]. discriminate Hev.
  - intros e options new_store st Hsel Hloop Hact Hne Hs.
    pose proof (@main_selection_raises program arguments e options new_store st
                  (or_introl Hact) Hsel Hloop Hne Hs) as Hm.
    cbv zeta in Hm. split.
    + assert (Hquiet : Forall (fun ev => prints_or_copies ev = false)
                              (trace (process_options options initial_settings))).
      { apply Forall_forall. intros ev Hin. apply loop_trace_In in Hin.
        destruct Hin as [-> | [-> | ->]]; reflexivity. }
      rewrite Hm.
      destruct e; simpl; constructor; try reflexivity;
        apply Forall_app; (split; [exact Hquiet |]);
        repeat constructor.
    + intros ->. exact Hm.
Qed.

Lemma aborted_selection_reveals_nothing_witness :
  let catalog := ["Personal/Zabbix"; "Personal/Email"]%string in
  let program := engine_store catalog 2 (scripted ["x"%string]) in
  select_entry program ["personal"%string] = Raise KeyboardInterrupt
  /\ main (Return ([("-n", EmptyString)]%string, ["personal"%string]))
          (fun _ => Return program)
     = ([InstallLogging; NewStore (Some false) None;
         SelectEntry ["personal"%string]],
        Raise (SystemExit 1)).
Proof.
  intros catalog program. split; [reflexivity |].
  refine (proj2 (proj2 (proj2 (proj2
            (aborted_selection_reveals_nothing program ["personal"%string])))
            KeyboardInterrupt [("-n", EmptyString)]%string (fun _ => Return program)
            (mkSettings ShowMatchingEntry (mkOpts (Some false) None))
            eq_refl eq_refl eq_refl _ eq_refl) eq_refl).
  discriminate.
Defined.

(** C9: neither the reveal nor the edit action catches what the
    selection raises: the exception leaves the action unchanged.  In
    [main] a [PasswordStoreError] of any kind ([NoMatchError] and
    [SelectionAbortedError] among them) has its message logged and ends
    the program through [sys.exit(1)]; a [KeyboardInterrupt] takes the
    other handler: [sys.exit(1)] as well, with no message logged. *)
Theorem core_errors_propagate
        (program : PasswordStore) (arguments : list string)
        (a : Action) (e : Exn) :
  a = ShowMatchingEntry \/ a = EditMatchingEntry ->
  select_entry program arguments = Raise e ->
  run_action a program arguments = ([SelectEntry arguments], Raise e)
  /\ (forall options new_store st,
         result (process_options options initial_settings) = Return (Next st) ->
         action st = a ->
         arguments <> [] ->
         new_store (program_opts st) = Return program ->
         let loop := process_options options initial_settings in
         let made := NewStore (clipboard_enabled (program_opts st))
                              (directory (program_opts st)) in
         let m := main (Return (options, arguments)) new_store in
         (forall kind msg,
             e = PasswordStoreError kind msg ->
             m = (InstallLogging
                    :: trace loop ++ [made; SelectEntry arguments; LogError msg],
                  Raise (SystemExit 1)))
         /\ (e = KeyboardInterrupt ->
             m = (InstallLogging :: trace loop ++ [made; SelectEntry arguments],
                  Raise (SystemExit 1))
             /\ forall msg, ~ In (LogError msg) (trace m))).
Proof.
  intros Ha Hsel. split.
  - destruct Ha as [-> | ->]; cbn [run_action].
    + apply show_matching_entry_raise. exact Hsel.
    + apply edit_matching_entry_raise. exact Hsel.
  - intros options new_store st Hloop Hact Hne Hs loop made m.
    assert (Hact' : action st = ShowMatchingEntry
                    \/ action st = EditMatchingEntry) by (rewrite Hact; exact Ha).
    pose proof (@main_selection_raises program arguments e options new_store st
                  Hact' Hsel Hloop Hne Hs) as Hm.
    cbv zeta in Hm. fold m loop made in Hm. split.
    + intros kind msg ->. exact Hm.
    + intros ->. split; [exact Hm |].
      intros msg. rewrite Hm. simpl. rewrite in_app_iff. simpl.
      intros [H | [Hin | [H | [H | []]]]]; try discriminate H.
      apply loop_trace_In in Hin.
      destruct Hin as [H | [H | H]]; discriminate H.
Qed.

Lemma core_errors_propagate_witness :
  let catalog := ["Personal/Zabbix"; "Personal/Email"]%string in
  let program := engine_store catalog 2 (scripted []) in
  select_entry program ["nonexistent"%string]
  = Raise (PasswordStoreError NoMatchError "no entry selected")
  /\ main (Return ([("--edit", EmptyString)]%string, ["nonexistent"%string]))
          (fun _ => Return program)
     = ([InstallLogging; NewStore None None;
         SelectEntry ["nonexistent"%string]; LogError "no entry selected"],
        Raise (SystemExit 1)).
Proof.
  intros catalog program. split; [reflexivity |].
  refine (proj1 (proj2 (@core_errors_propagate
            program ["nonexistent"%string] EditMatchingEntry
            (PasswordStoreError NoMatchError "no entry selected")
            (or_intror eq_refl) eq_refl)
            [("--edit", EmptyString)]%string (fun _ => Return program)
            (mkSettings EditMatchingEntry (mkOpts None None))
            eq_refl eq_refl _ eq_refl) NoMatchError _ eq_refl).
  discriminate.
Defined.

(** ** The list action *)

Lemma chars_of_append (a b : string) :
  chars_of (String.append a b) = chars_of a ++ chars_of b.
Proof. induction a as [| c a IH]; simpl; [reflexivity | f_equal; exact IH]. Qed.

Lemma chars_of_concat (sep : string) (l : list string) :
  chars_of (String.concat sep l) = join (chars_of sep) (map chars_of l).
Proof.
  induction l as [| x [| y l] IH]; try reflexivity.
  change (String.concat sep (x :: y :: l))
    with (String.append x (String.append sep (String.concat sep (y :: l)))).
  rewrite !chars_of_append, IH. reflexivity.
Qed.

Lemma split_on_app_sep (sep : ascii) (p s : chars) :
  ~ In sep p -> split_on sep (p ++ sep :: s) = p :: split_on sep s.
Proof.
  induction p as [| c p IH]; simpl; intros Hn.
  - rewrite Ascii.eqb_refl. reflexivity.
  - destruct (Ascii.eqb c sep) eqn:E.
    + apply Ascii.eqb_eq in E. tauto.
    + rewrite IH by tauto. reflexivity.
Qed.

(** Joined with the separator and split again, pieces without the
    separator come back as they were. *)
Lemma split_on_join (sep : ascii) (parts : list chars) :
  parts <> [] -> Forall (fun p => ~ In sep p) parts ->
  split_on sep (join [sep] parts) = parts.
Proof.
  intros Hne Hall. induction Hall as [| p [| q rest] Hp Hall IH].
  - contradiction.
  - simpl. apply split_on_no_sep. exact Hp.
  - change (join [sep] (p :: q :: rest))
      with (p ++ sep :: join [sep] (q :: rest)).
    rewrite split_on_app_sep by exact Hp.
    rewrite IH by discriminate. reflexivity.
Qed.

(** C8: the list action calls [smart_search] and nothing else of the
    store: no selection step, hence no prompt.  What it prints is the
    names joined by newlines, so one name per line in the order
    [smart_search] gave them; with the Query Engine behind the store that
    is the catalog's order.  [main] under the list action does just
    this once the store is made. *)
Theorem list_bypasses_selector
        (program : PasswordStore) (arguments : list string) :
  let listed := list_matching_entries program arguments in
  let nl := String newline EmptyString in
  Forall (fun ev => is_selection ev = false) (trace listed)
  /\ (forall names,
         smart_search program arguments = Return names ->
         listed = ([SmartSearch arguments; Output (String.concat nl names)],
                   Return tt)
         /\ (names <> [] ->
             Forall (fun n => ~ In newline (chars_of n)) names ->
             split_on newline (chars_of (String.concat nl names))
             = map chars_of names))
  /\ (forall catalog retry_bound prompt_fn,
         program = engine_store catalog retry_bound prompt_fn ->
         listed = ([SmartSearch arguments;
                    Output (String.concat nl (search arguments catalog))],
                   Return tt)
         /\ Subseq (search arguments catalog) catalog)
  /\ (forall options new_store st names,
         result (process_options options initial_settings) = Return (Next st) ->
         action st = ListMatchingEntries ->
         new_store (program_opts st) = Return program ->
         smart_search program arguments = Return names ->
         main (Return (options, arguments)) new_store
         = (InstallLogging
              :: trace (process_options options initial_settings)
                 ++ [NewStore (clipboard_enabled (program_opts st))
                              (directory (program_opts st));
                     SmartSearch arguments;
                     Output (String.concat nl names)],
            Return tt)).
Proof.
  intros listed nl. unfold listed.
  split; [| split; [| split]].
  - rewrite list_matching_entries_trace.
    destruct (smart_search program arguments); repeat constructor.
  - intros names Hnames. split.
    + rewrite list_matching_entries_trace, Hnames. reflexivity.
    + intros Hne Hall. unfold nl. rewrite chars_of_concat.
      change (chars_of (String newline EmptyString)) with [newline].
      apply split_on_join.
      * destruct names; [contradiction | discriminate].
      * apply Forall_map. exact Hall.
  - intros catalog retry_bound prompt_fn ->. split.
    + rewrite list_matching_entries_trace. reflexivity.
    + apply Subseq_filter.
  - intros options new_store st names Hloop Hact Hs Hnames.
    rewrite (@main_runs_action options arguments new_store st Hloop
               (or_intror Hact)).
    rewrite (@main_execute_action new_store st arguments program Hs).
    cbv zeta. rewrite Hact. cbn [run_action].
    rewrite list_matching_entries_trace, Hnames. reflexivity.
Qed.

Lemma list_bypasses_selector_witness :
  let catalog := ["Personal/Zabbix"; "Personal/Email";
                  "Bank accounts/Creditcard"]%string in
  let program := engine_store catalog 2 (scripted []) in
  let nl := String newline EmptyString in
  main (Return ([("-l", EmptyString)]%string, ["personal"%string]))
       (fun _ => Return program)
  = ([InstallLogging; NewStore None None; SmartSearch ["personal"%string];
      Output (String.concat nl ["Personal/Zabbix"; "Personal/Email"]%string)],
     Return tt)
  /\ split_on newline
       (chars_of (String.concat nl ["Personal/Zabbix"; "Personal/Email"]%string))
     = [chars_of "Personal/Zabbix"; chars_of "Personal/Email"].
Proof.
  intros catalog program nl.
  pose proof (list_bypasses_selector program ["personal"%string]) as H.
  cbv zeta in H. destruct H as [_ [Hnames [_ Hmain]]].
  split.
  - exact (Hmain [("-l", EmptyString)]%string (fun _ => Return program)
                 (mkSettings ListMatchingEntries (mkOpts None None))
                 ["Personal/Zabbix"; "Personal/Email"]%string
                 eq_refl eq_refl eq_refl eq_refl).
  - refine (proj2 (Hnames ["Personal/Zabbix"; "Personal/Email"]%string eq_refl)
                  _ _).
    + discriminate.
    + repeat constructor; simpl; intros H;
        repeat (destruct H as [H | H]; [discriminate H |]); exact H.
Defined.

Lemma last_action_option_wins_witness :
  let options := [("-e", EmptyString); ("-v", EmptyString); ("--list", EmptyString); ("-n", EmptyString)]%string in
  action_run (main_parse (Return (options, ["personal"%string])))
  = Some ListMatchingEntries
  /\ ListMatchingEntries = ListMatchingEntries.
Proof.
  intros options. split; [reflexivity |].
  refine (proj1 (proj2 (last_action_option_wins options ["personal"%string]))
                [("-e", EmptyString); ("-v", EmptyString)]%string "--list"%string EmptyString
                [("-n", EmptyString)]%string ListMatchingEntries ListMatchingEntries
                eq_refl eq_refl _ eq_refl).
  repeat constructor.
Defined.

(* ================================================================== *)
(** * Part III: further properties of [cli.py] *)
(* ================================================================== *)

Unset Implicit Arguments.

(** ** One step of the option loop *)

Lemma process_options_step (o v : string) (rest : list (string * string))
      (st : Settings) :
  process_options ((o, v) :: rest) st
  = match option_kind o with
    | KEdit => process_options rest (mkSettings EditMatchingEntry (program_opts st))
    | KList => process_options rest (mkSettings ListMatchingEntries (program_opts st))
    | KNoClipboard =>
        process_options rest
          (mkSettings (action st)
                      (mkOpts (Some false) (directory (program_opts st))))
    | KStore =>
        process_options rest
          (mkSettings (action st)
                      (mkOpts (clipboard_enabled (program_opts st)) (Some v)))
    | KVerbose => emit IncreaseVerbosity ;;; process_options rest st
    | KQuiet => emit DecreaseVerbosity ;;; process_options rest st
    | KHelp => emit Usage ;;; ret Returned
    | KUnhandled => raise (OtherException unhandled_message)
    end.
Proof.
  unfold option_kind. cbn [process_options].
  repeat match goal with
         | |- context [if option_in o ?l then _ else _] =>
             destruct (option_in o l)
         end; reflexivity.
Qed.

Lemma option_kind_of_spelling (k : OptionKind) (o : string) :
  In o (spellings k) -> option_kind o = k.
Proof.
  destruct k; simpl; intros H;
    repeat (destruct H as [<- | H]; [reflexivity |]); contradiction.
Qed.

Lemma option_kind_spelling (o : string) :
  option_kind o <> KUnhandled -> In o (spellings (option_kind o)).
Proof.
  unfold option_kind.
  repeat match goal with
         | |- context [if option_in o ?l then _ else _] =>
             let E := fresh "E" in
             destruct (option_in o l) eqn:E;
             [intros _; apply option_in_In in E; exact E |]
         end.
  intros H. contradiction.
Qed.

Lemma spellings_handled (k : OptionKind) (o : string) :
  In o (spellings k) -> In o handled_spellings.
Proof.
  destruct k; simpl; intros H;
    repeat (destruct H as [<- | H]; [simpl; tauto |]); contradiction.
Qed.

Lemma option_kind_unhandled (o : string) :
  ~ In o handled_spellings <-> option_kind o = KUnhandled.
Proof.
  split.
  - intros Hn. destruct (option_kind o) eqn:E; try reflexivity;
      exfalso; apply Hn;
      apply (@spellings_handled (option_kind o));
      apply option_kind_spelling; rewrite E; discriminate.
  - intros E Hin. unfold handled_spellings in Hin. simpl in Hin.
    repeat (destruct Hin as [<- | Hin]; [discriminate E |]). exact Hin.
Qed.

Lemma bind_assoc {A B C : Type} (m : Eff A) (f : A -> Eff B) (g : B -> Eff C) :
  (y <- (x <- m ;; f x) ;; g y) = (x <- m ;; y <- f x ;; g y).
Proof.
  destruct m as [t [a | e]]; simpl; [| reflexivity].
  destruct (f a) as [t' [b | e']]; simpl; [| reflexivity].
  destruct (g b) as [t'' r]. rewrite app_assoc. reflexivity.
Qed.

Lemma bind_ret_l {A B : Type} (a : A) (k : A -> Eff B) :
  (x <- ret a ;; k x) = k a.
Proof. unfold bind, ret. destruct (k a). reflexivity. Qed.

(** ** The loop over a concatenation *)

Lemma process_options_concat
      (options1 options2 : list (string * string)) (st : Settings) :
  process_options (options1 ++ options2) st
  = (flow <- process_options options1 st ;;
     match flow with
     | Next st1 => process_options options2 st1
     | Returned => ret Returned
     end).
Proof.
  revert st. induction options1 as [| [o v] rest IH]; intros st.
  - simpl app. cbn [process_options]. rewrite bind_ret_l. reflexivity.
  - simpl app. rewrite !process_options_step.
    destruct (option_kind o); try apply IH.
    + rewrite bind_assoc, !bind_emit, IH. reflexivity.
    + rewrite bind_assoc, !bind_emit, IH. reflexivity.
    + reflexivity.
    + reflexivity.
Qed.

(** X1: the options are handled strictly from left to right: the loop
    over [options1 ++ options2] is the loop over [options1] followed,
    when that one runs to its end, by the loop over [options2] from the
    settings reached; a help option or an unhandled option in [options1]
    ends it there, whatever [options2] holds. *)
Theorem process_options_app
        (options1 options2 : list (string * string)) (st : Settings) :
  process_options (options1 ++ options2) st
  = (flow <- process_options options1 st ;;
     match flow with
     | Next st1 => process_options options2 st1
     | Returned => ret Returned
     end)
  /\ (forall st1,
         result (process_options options1 st) = Return (Next st1) ->
         process_options (options1 ++ options2) st
         = (trace (process_options options1 st)
              ++ trace (process_options options2 st1),
            result (process_options options2 st1)))
  /\ (result (process_options options1 st) = Return Returned
      \/ (exists e, result (process_options options1 st) = Raise e) ->
      process_options (options1 ++ options2) st = process_options options1 st).
Proof.
  split; [apply process_options_concat | split].
  - intros st1 H. rewrite process_options_concat.
    destruct (process_options options1 st) as [t r]. simpl in H. subst r.
    simpl. destruct (process_options options2 st1). reflexivity.
  - intros H. rewrite process_options_concat.
    destruct (process_options options1 st) as [t r]. simpl in H.
    destruct H as [-> | [e ->]]; simpl.
    + rewrite app_nil_r. reflexivity.
    + reflexivity.
Qed.

Lemma process_options_app_witness :
  process_options ([("-q", EmptyString); ("-h", EmptyString)]%string
                     ++ [("--bogus", EmptyString)]%string) initial_settings
  = process_options [("-q", EmptyString); ("-h", EmptyString)]%string
                    initial_settings
  /\ process_options ([("-l", EmptyString)]%string
                        ++ [("-v", EmptyString)]%string)
                     initial_settings
     = ([IncreaseVerbosity],
        Return (Next (mkSettings ListMatchingEntries (mkOpts None None)))).
Proof.
  split.
  - exact (proj2 (proj2 (process_options_app
                           [("-q", EmptyString); ("-h", EmptyString)]%string
                           [("--bogus", EmptyString)]%string initial_settings))
                 (or_introl eq_refl)).
  - exact (proj1 (proj2 (process_options_app
                           [("-l", EmptyString)]%string
                           [("-v", EmptyString)]%string initial_settings))
                 (mkSettings ListMatchingEntries (mkOpts None None)) eq_refl).
Defined.

Lemma process_options_app_next
      (options1 options2 : list (string * string)) (st st1 : Settings) :
  result (process_options options1 st) = Return (Next st1) ->
  process_options (options1 ++ options2) st
  = (trace (process_options options1 st) ++ trace (process_options options2 st1),
     result (process_options options2 st1)).
Proof.
  intros H. rewrite process_options_concat.
  destruct (process_options options1 st) as [t r]. simpl in H. subst r.
  simpl. destruct (process_options options2 st1). reflexivity.
Qed.

Lemma process_options_app_inv
      (options1 options2 : list (string * string)) (st st' : Settings) :
  result (process_options (options1 ++ options2) st) = Return (Next st') ->
  exists st1,
    result (process_options options1 st) = Return (Next st1)
    /\ result (process_options options2 st1) = Return (Next st').
Proof.
  rewrite process_options_concat.
  destruct (process_options options1 st) as [t [[st1 |] | e]]; simpl.
  - destruct (process_options options2 st1) as [t' r] eqn:E. simpl.
    intros ->. exists st1. rewrite E. split; reflexivity.
  - discriminate.
  - discriminate.
Qed.

(** The only exception the loop raises is the one of its last branch. *)
Lemma process_options_raises (options : list (string * string)) (st : Settings)
      (e : Exn) :
  result (process_options options st) = Raise e ->
  e = OtherException unhandled_message.
Proof.
  revert st. induction options as [| [o v] rest IH]; intros st.
  - discriminate.
  - rewrite process_options_step.
    destruct (option_kind o); try apply IH.
    + rewrite bind_emit. apply IH.
    + rewrite bind_emit. apply IH.
    + discriminate.
    + intros [= <-]. reflexivity.
Qed.

(** ** Help and unhandled options *)

(** X2: a help option stops [main] on the spot: when the options before
    it are handled without a help option among them, [main] prints the
    usage message and returns; no store is made, no action is run, and
    what follows the help option on the command line (other options, an
    unhandled one, the arguments) plays no part. *)
Theorem help_stops_main
        (before after : list (string * string)) (o v : string)
        (arguments : list string)
        (new_store : ProgramOpts -> Result PasswordStore) (st1 : Settings) :
  result (process_options before initial_settings) = Return (Next st1) ->
  In o ["-h"; "--help"]%string ->
  main (Return (before ++ (o, v) :: after, arguments)) new_store
  = (InstallLogging :: trace (process_options before initial_settings)
                    ++ [Usage],
     Return tt).
Proof.
  intros Hbefore Ho.
  rewrite main_unfold, main_parse_loop. cbv zeta.
  rewrite (@process_options_app_next before _ _ st1 Hbefore), process_options_step.
  rewrite (@option_kind_of_spelling KHelp o Ho). reflexivity.
Qed.

Lemma help_stops_main_witness :
  main (Return ([("-v", EmptyString); ("--help", EmptyString);
                 ("--bogus", EmptyString); ("-l", EmptyString)]%string,
                ["personal"%string]))
       (fun _ => Raise KeyboardInterrupt)
  = ([InstallLogging; IncreaseVerbosity; Usage], Return tt).
Proof.
  refine (@help_stops_main [("-v", EmptyString)]%string
            [("--bogus", EmptyString); ("-l", EmptyString)]%string
            "--help"%string EmptyString ["personal"%string]
            (fun _ => Raise KeyboardInterrupt) initial_settings eq_refl _).
  simpl. tauto.
Defined.

(** X3: a command line that cannot be parsed ends in one warning and
    exit status 1, before any store is made: when [gnu_getopt] raises an
    exception the warning carries its message, and when the loop meets an
    option it does not handle (the options before it being handled, no
    help option among them) the warning names the programming error. *)
Theorem parse_errors_warn_and_exit
        (new_store : ProgramOpts -> Result PasswordStore) :
  (forall e,
      is_Exception e = true ->
      main (Raise e) new_store
      = ([InstallLogging; Warning (String.append "Error: " (str_of_exn e))],
         Raise (SystemExit 1)))
  /\ (forall before after o v arguments st1,
         result (process_options before initial_settings) = Return (Next st1) ->
         ~ In o handled_spellings ->
         main (Return (before ++ (o, v) :: after, arguments)) new_store
         = (InstallLogging
              :: trace (process_options before initial_settings)
                 ++ [Warning (String.append "Error: " unhandled_message)],
            Raise (SystemExit 1))).
Proof.
  split.
  - intros e He. unfold main, main_parse. rewrite bind_emit.
    cbn [bind try_except]. rewrite He. reflexivity.
  - intros before after o v arguments st1 Hbefore Ho.
    apply option_kind_unhandled in Ho.
    rewrite main_unfold, main_parse_loop. cbv zeta.
    rewrite (@process_options_app_next before _ _ st1 Hbefore), process_options_step, Ho.
    cbn [result trace snd fst raise is_Exception str_of_exn].
    rewrite app_nil_r. reflexivity.
Qed.

Lemma parse_errors_warn_and_exit_witness :
  main (Raise (OtherException "option --bogus not recognized"))
       (fun _ => Raise KeyboardInterrupt)
  = ([InstallLogging; Warning "Error: option --bogus not recognized"],
     Raise (SystemExit 1))
  /\ main (Return ([("-q", EmptyString); ("-x", EmptyString);
                    ("-h", EmptyString)]%string, []))
          (fun _ => Raise KeyboardInterrupt)
     = ([InstallLogging; DecreaseVerbosity;
         Warning "Error: Unhandled option! (programming error)"],
        Raise (SystemExit 1)).
Proof.
  split.
  - exact (proj1 (parse_errors_warn_and_exit (fun _ => Raise KeyboardInterrupt))
                 (OtherException "option --bogus not recognized") eq_refl).
  - refine (proj2 (parse_errors_warn_and_exit (fun _ => Raise KeyboardInterrupt))
                  [("-q", EmptyString)]%string [("-h", EmptyString)]%string
                  "-x"%string EmptyString [] initial_settings eq_refl _).
    simpl. intros H.
    repeat (destruct H as [H | H]; [discriminate H |]). exact H.
Defined.

(** ** What the options leave in [program_opts] and on the log level *)

Lemma option_in_spellings (k : OptionKind) (o : string) :
  k <> KUnhandled ->
  (option_in o (spellings k) = true <-> option_kind o = k).
Proof.
  intros Hk. rewrite option_in_In. split.
  - apply option_kind_of_spelling.
  - intros <-. apply option_kind_spelling. exact Hk.
Qed.

Lemma option_in_spellings_false (k : OptionKind) (o : string) :
  k <> KUnhandled -> option_kind o <> k -> option_in o (spellings k) = false.
Proof.
  intros Hk Hne. destruct (option_in o (spellings k)) eqn:E; [| reflexivity].
  apply (option_in_spellings k o Hk) in E. contradiction.
Qed.

Lemma clipboard_after_loop (options : list (string * string))
      (st st' : Settings) :
  result (process_options options st) = Return (Next st') ->
  clipboard_enabled (program_opts st')
  = if existsb (fun ov => option_in (fst ov) ["-n"; "--no-clipboard"]%string)
               options
    then Some false
    else clipboard_enabled (program_opts st).
Proof.
  revert st. induction options as [| [o v] rest IH]; intros st.
  - simpl. intros [= <-]. reflexivity.
  - rewrite process_options_step. cbn [existsb fst].
    change ["-n"; "--no-clipboard"]%string with (spellings KNoClipboard).
    destruct (option_kind o) eqn:K;
      try (rewrite (@option_in_spellings_false KNoClipboard o)
            by (try discriminate; rewrite K; discriminate);
           cbn [orb]).
    + intros H. apply IH in H. exact H.
    + intros H. apply IH in H. exact H.
    + rewrite (proj2 (@option_in_spellings KNoClipboard o ltac:(discriminate)) K).
      cbn [orb]. intros H. apply IH in H. rewrite H. simpl.
      destruct (existsb _ rest); reflexivity.
    + intros H. apply IH in H. exact H.
    + rewrite bind_emit. intros H. apply IH in H. exact H.
    + rewrite bind_emit. intros H. apply IH in H. exact H.
    + discriminate.
    + discriminate.
Qed.

Lemma directory_kept (options : list (string * string)) (st st' : Settings) :
  Forall (fun ov => ~ In (fst ov) ["-p"; "--password-store"]%string) options ->
  result (process_options options st) = Return (Next st') ->
  directory (program_opts st') = directory (program_opts st).
Proof.
  intros Hall. revert st.
  induction Hall as [| [o v] rest Ho Hall IH]; intros st.
  - simpl. intros [= <-]. reflexivity.
  - rewrite process_options_step. simpl in Ho.
    destruct (option_kind o) eqn:K.
    + intros H. apply IH in H. exact H.
    + intros H. apply IH in H. exact H.
    + intros H. apply IH in H. exact H.
    + exfalso. apply Ho.
      assert (K' : In o (spellings (option_kind o)))
        by (apply option_kind_spelling; rewrite K; discriminate).
      rewrite K in K'. exact K'.
    + rewrite bind_emit. intros H. apply IH in H. exact H.
    + rewrite bind_emit. intros H. apply IH in H. exact H.
    + discriminate.
    + discriminate.
Qed.

(** X4: when the loop runs to its end, [program_opts] holds
    [clipboard_enabled = False] exactly when some -n/--no-clipboard was
    given (the key is absent otherwise), and [directory] is the value of
    the last -p/--password-store option (absent when there is none). *)
Theorem program_opts_from_options
        (options : list (string * string)) (st : Settings) :
  result (process_options options initial_settings) = Return (Next st) ->
  clipboard_enabled (program_opts st)
  = (if existsb (fun ov => option_in (fst ov) ["-n"; "--no-clipboard"]%string)
                options
     then Some false else None)
  /\ (forall before o v after,
         options = before ++ (o, v) :: after ->
         In o ["-p"; "--password-store"]%string ->
         Forall (fun ov => ~ In (fst ov) ["-p"; "--password-store"]%string)
                after ->
         directory (program_opts st) = Some v)
  /\ (Forall (fun ov => ~ In (fst ov) ["-p"; "--password-store"]%string)
             options ->
      directory (program_opts st) = None).
Proof.
  intros Hloop. split; [| split].
  - exact (@clipboard_after_loop options initial_settings st Hloop).
  - intros before o v after -> Ho Hafter.
    apply process_options_app_inv in Hloop.
    destruct Hloop as [st1 [_ Hrest]].
    rewrite process_options_step in Hrest.
    rewrite (@option_kind_of_spelling KStore o Ho) in Hrest.
    apply (@directory_kept after _ st Hafter) in Hrest. exact Hrest.
  - intros Hall. exact (@directory_kept options initial_settings st Hall Hloop).
Qed.

Lemma program_opts_from_options_witness :
  let options := [("-p", "/old"); ("-n", EmptyString);
                  ("--password-store", "/new"); ("-e", EmptyString)]%string in
  let st := mkSettings EditMatchingEntry (mkOpts (Some false) (Some "/new"%string)) in
  result (process_options options initial_settings) = Return (Next st)
  /\ directory (program_opts st) = Some "/new"%string.
Proof.
  intros options st.
  assert (Hloop : result (process_options options initial_settings)
                  = Return (Next st)) by reflexivity.
  split; [exact Hloop |].
  refine (proj1 (proj2 (@program_opts_from_options options st Hloop))
                [("-p", "/old"); ("-n", EmptyString)]%string
                "--password-store"%string "/new"%string
                [("-e", EmptyString)]%string eq_refl _ _).
  - simpl. tauto.
  - repeat constructor. simpl. intros H.
    repeat (destruct H as [H | H]; [discriminate H |]). exact H.
Defined.

Lemma verbosity_events_kind (o : string) :
  verbosity_events o
  = match option_kind o with
    | KVerbose => [IncreaseVerbosity]
    | KQuiet => [DecreaseVerbosity]
    | _ => []
    end.
Proof.
  unfold verbosity_events.
  change ["-v"; "--verbose"]%string with (spellings KVerbose).
  change ["-q"; "--quiet"]%string with (spellings KQuiet).
  destruct (option_kind o) eqn:K;
    try (rewrite (@option_in_spellings_false KVerbose o)
          by (try discriminate; rewrite K; discriminate));
    try (rewrite (@option_in_spellings_false KQuiet o)
          by (try discriminate; rewrite K; discriminate));
    try reflexivity.
  - rewrite (proj2 (@option_in_spellings KVerbose o ltac:(discriminate)) K).
    reflexivity.
  - rewrite (proj2 (@option_in_spellings KQuiet o ltac:(discriminate)) K).
    reflexivity.
Qed.

(** X5: when the loop runs to its end, the verbosity was raised once for
    every -v/--verbose and lowered once for every -q/--quiet, in the
    order of the command line, and the loop did nothing else to the
    outside world. *)
Theorem verbosity_follows_options
        (options : list (string * string)) (st st' : Settings) :
  result (process_options options st) = Return (Next st') ->
  trace (process_options options st)
  = flat_map (fun ov => verbosity_events (fst ov)) options.
Proof.
  revert st. induction options as [| [o v] rest IH]; intros st.
  - reflexivity.
  - rewrite process_options_step. cbn [flat_map fst].
    rewrite verbosity_events_kind.
    destruct (option_kind o); try (intros H; apply IH in H; exact H).
    + rewrite bind_emit. intros H. apply IH in H. simpl. f_equal. exact H.
    + rewrite bind_emit. intros H. apply IH in H. simpl. f_equal. exact H.
    + discriminate.
    + discriminate.
Qed.

Lemma verbosity_follows_options_witness :
  trace (process_options
           [("-v", EmptyString); ("-l", EmptyString); ("--quiet", EmptyString);
            ("-v", EmptyString)]%string initial_settings)
  = [IncreaseVerbosity; DecreaseVerbosity; IncreaseVerbosity].
Proof.
  exact (@verbosity_follows_options
           [("-v", EmptyString); ("-l", EmptyString); ("--quiet", EmptyString);
            ("-v", EmptyString)]%string initial_settings
           (mkSettings ListMatchingEntries (mkOpts None None)) eq_refl).
Defined.

(** ** The edit and the reveal action *)

(** X6: the edit action prints nothing and copies nothing; the one
    command it has executed is [pass edit NAME], and only for the name
    the selection returned: when the selection raises, nothing is
    executed. *)
Theorem edit_runs_pass_edit
        (program : PasswordStore) (arguments : list string) :
  let edited := edit_matching_entry program arguments in
  Forall (fun ev => prints_or_copies ev = false) (trace edited)
  /\ (forall command,
         In (Execute command) (trace edited) ->
         exists name,
           select_entry program arguments = Return name
           /\ command = ["pass"; "edit"; name]%string
           /\ edited = ([SelectEntry arguments; Execute command],
                        context_execute program command)).
Proof.
  intros edited. unfold edited, edit_matching_entry.
  destruct (select_entry program arguments) as [name | e].
  - rewrite bind_call_return. unfold call. simpl. split.
    + repeat constructor.
    + intros command [H | [H | []]]; [discriminate H |].
      injection H as <-. exists name. repeat split.
  - rewrite bind_call_raise. simpl. split.
    + repeat constructor.
    + intros command [H | []]. discriminate H.
Qed.

Lemma edit_runs_pass_edit_witness :
  let program := engine_store ["Personal/Zabbix"; "Personal/Email"]%string
                              2 (scripted []) in
  exists name,
    select_entry program ["zabbix"%string] = Return name
    /\ ["pass"; "edit"; "Personal/Zabbix"]%string = ["pass"; "edit"; name]%string
    /\ edit_matching_entry program ["zabbix"%string]
       = ([SelectEntry ["zabbix"%string];
           Execute ["pass"; "edit"; "Personal/Zabbix"]%string],
          context_execute program ["pass"; "edit"; "Personal/Zabbix"]%string).
Proof.
  intros program.
  refine (proj2 (edit_runs_pass_edit program ["zabbix"%string])
                ["pass"; "edit"; "Personal/Zabbix"]%string _).
  simpl. tauto.
Defined.

(** X7: in the reveal action the password of an entry is copied only if
    that entry is the one the selection returned and its formatted text
    was printed just before: a failure of [format_entry] leaves the
    clipboard alone. *)
Theorem copy_follows_output
        (program : PasswordStore) (arguments : list string)
        (copied : EntryName) :
  In (CopyPassword copied) (trace (show_matching_entry program arguments)) ->
  select_entry program arguments = Return copied
  /\ exists text,
       format_entry program copied = Return text
       /\ show_matching_entry program arguments
          = ([SelectEntry arguments; FormatEntry copied; Output text;
              CopyPassword copied],
             copy_password program copied).
Proof.
  destruct (select_entry program arguments) as [name | e] eqn:Hsel.
  - rewrite (@show_matching_entry_return program arguments name Hsel).
    destruct (format_entry program name) as [text | e] eqn:Hfmt; simpl.
    + intros [H | [H | [H | [H | []]]]]; try discriminate H.
      injection H as <-. split; [reflexivity |].
      exists text. rewrite Hfmt. split; reflexivity.
    + intros [H | [H | []]]; discriminate H.
  - rewrite (@show_matching_entry_raise program arguments e Hsel). simpl.
    intros [H | []]. discriminate H.
Qed.

Lemma copy_follows_output_witness :
  let program := engine_store ["Personal/Zabbix"; "Personal/Email"]%string
                              2 (scripted ["2"%string]) in
  select_entry program ["personal"%string] = Return "Personal/Email"%string
  /\ exists text,
       format_entry program "Personal/Email"%string = Return text
       /\ show_matching_entry program ["personal"%string]
          = ([SelectEntry ["personal"%string]; FormatEntry "Personal/Email"%string;
              Output text; CopyPassword "Personal/Email"%string],
             copy_password program "Personal/Email"%string).
Proof.
  intros program.
  refine (copy_follows_output program ["personal"%string]
                              "Personal/Email"%string _).
  simpl. tauto.
Defined.

(** ** The second [try] block *)

Lemma main_execute_result (new_store : ProgramOpts -> Result PasswordStore)
      (st : Settings) (arguments : list string) :
  (forall kind msg,
      result (main_execute new_store st arguments)
      <> Raise (PasswordStoreError kind msg))
  /\ result (main_execute new_store st arguments) <> Raise KeyboardInterrupt.
Proof.
  unfold main_execute, try_except.
  destruct (program <- call _ (new_store (program_opts st)) ;;
            run_action (action st) program arguments) as [t [u | e]].
  - split; [intros kind msg |]; discriminate.
  - destruct e; simpl; (split; [intros kind0 msg0 |]); discriminate.
Qed.

(** X8: once the command line is parsed, neither a [PasswordStoreError]
    nor a [KeyboardInterrupt] ever leaves [main], whatever the store and
    its methods do: [main] returns, leaves through [sys.exit], or lets
    another kind of exception through. *)
Theorem main_contains_known_exceptions
        (options : list (string * string)) (arguments : list string)
        (new_store : ProgramOpts -> Result PasswordStore) :
  (forall kind msg,
      result (main (Return (options, arguments)) new_store)
      <> Raise (PasswordStoreError kind msg))
  /\ result (main (Return (options, arguments)) new_store)
     <> Raise KeyboardInterrupt.
Proof.
  rewrite main_unfold, main_parse_loop. cbv zeta.
  destruct (result (process_options options initial_settings))
    as [[st |] | e] eqn:Hloop.
  - destruct (negb (negb (Nat.eqb (length arguments) 0)
                    || Action_eqb (action st) ListMatchingEntries)).
    + simpl. split; [intros kind msg |]; discriminate.
    + cbn [result trace fst snd]. apply main_execute_result.
  - simpl. split; [intros kind msg |]; discriminate.
  - apply process_options_raises in Hloop. subst e. simpl.
    split; [intros kind msg |]; discriminate.
Qed.

(** X9: when the constructor of the store raises, no action is run: a
    [PasswordStoreError] is logged and ends [main] with status 1, a
    [KeyboardInterrupt] ends it with status 1 in silence, [sys.exit] and
    every other exception go through unchanged. *)
Theorem store_construction_failure
        (options : list (string * string)) (arguments : list string)
        (new_store : ProgramOpts -> Result PasswordStore)
        (st : Settings) (e : Exn) :
  result (process_options options initial_settings) = Return (Next st) ->
  arguments <> [] \/ action st = ListMatchingEntries ->
  new_store (program_opts st) = Raise e ->
  main (Return (options, arguments)) new_store
  = let made := NewStore (clipboard_enabled (program_opts st))
                         (directory (program_opts st)) in
    let loop := process_options options initial_settings in
    match e with
    | PasswordStoreError _ msg =>
        (InstallLogging :: trace loop ++ [made; LogError msg],
         Raise (SystemExit 1))
    | KeyboardInterrupt =>
        (InstallLogging :: trace loop ++ [made], Raise (SystemExit 1))
    | _ => (InstallLogging :: trace loop ++ [made], Raise e)
    end.
Proof.
  intros Hloop Hok Hs.
  rewrite (@main_runs_action options arguments new_store st Hloop Hok).
  unfold main_execute. rewrite Hs, bind_call_raise.
  destruct e; reflexivity.
Qed.

Lemma store_construction_failure_witness :
  main (Return ([("-p", "/nowhere")]%string, ["personal"%string]))
       (fun _ => Raise (PasswordStoreError CollaboratorError "no such directory"))
  = ([InstallLogging; NewStore None (Some "/nowhere"%string);
      LogError "no such directory"],
     Raise (SystemExit 1)).
Proof.
  refine (@store_construction_failure
            [("-p", "/nowhere")]%string ["personal"%string]
            (fun _ => Raise (PasswordStoreError CollaboratorError "no such directory"))
            (mkSettings ShowMatchingEntry (mkOpts None (Some "/nowhere"%string)))
            (PasswordStoreError CollaboratorError "no such directory")
            eq_refl (or_introl _) eq_refl).
  discriminate.
Defined.

(** X10: whichever action runs and whichever of its calls raises (the
    search, the selection, the formatting, the clipboard, the editor):
    what the action did up to there stays done, then a
    [PasswordStoreError] is logged and ends [main] with status 1, a
    [KeyboardInterrupt] ends it with status 1 in silence, and any other
    exception leaves [main] unchanged. *)
Theorem action_failure_handling
        (options : list (string * string)) (arguments : list string)
        (new_store : ProgramOpts -> Result PasswordStore)
        (st : Settings) (program : PasswordStore) (e : Exn) :
  result (process_options options initial_settings) = Return (Next st) ->
  arguments <> [] \/ action st = ListMatchingEntries ->
  new_store (program_opts st) = Return program ->
  result (run_action (action st) program arguments) = Raise e ->
  main (Return (options, arguments)) new_store
  = let made := NewStore (clipboard_enabled (program_opts st))
                         (directory (program_opts st)) in
    let loop := process_options options initial_settings in
    let run := run_action (action st) program arguments in
    match e with
    | PasswordStoreError _ msg =>
        (InstallLogging :: trace loop ++ made :: trace run ++ [LogError msg],
         Raise (SystemExit 1))
    | KeyboardInterrupt =>
        (InstallLogging :: trace loop ++ made :: trace run,
         Raise (SystemExit 1))
    | _ => (InstallLogging :: trace loop ++ made :: trace run, Raise e)
    end.
Proof.
  intros Hloop Hok Hs Hrun.
  rewrite (@main_runs_action options arguments new_store st Hloop Hok).
  rewrite (@main_execute_action new_store st arguments program Hs).
  cbv zeta. rewrite Hrun. destruct e; reflexivity.
Qed.

Lemma action_failure_handling_witness :
  let program :=
    mkStore (fun _ => Return "Personal/Zabbix"%string)
            (fun _ => Return ["Personal/Zabbix"%string])
            (fun _ => Return "hunter2"%string)
            (fun _ => Raise (PasswordStoreError CollaboratorError "no clipboard"))
            (fun _ => Return tt) in
  main (Return ([], ["zabbix"%string])) (fun _ => Return program)
  = ([InstallLogging; NewStore None None; SelectEntry ["zabbix"%string];
      FormatEntry "Personal/Zabbix"%string; Output "hunter2"%string;
      CopyPassword "Personal/Zabbix"%string; LogError "no clipboard"],
     Raise (SystemExit 1)).
Proof.
  intros program.
  refine (@action_failure_handling
            [] ["zabbix"%string] (fun _ => Return program)
            initial_settings program
            (PasswordStoreError CollaboratorError "no clipboard")
            eq_refl (or_introl _) eq_refl eq_refl).
  discriminate.
Defined.

(** ** Spellings *)

Lemma option_kind_short (o : string) :
  option_kind (short_spelling o) = option_kind o.
Proof.
  unfold short_spelling.
  repeat match goal with
         | |- context [if String.eqb o ?s then _ else _] =>
             destruct (String.eqb_spec o s); [subst o; reflexivity |]
         end.
  reflexivity.
Qed.

Lemma process_options_short (options : list (string * string)) (st : Settings) :
  process_options (map (fun ov => (short_spelling (fst ov), snd ov)) options) st
  = process_options options st.
Proof.
  revert st. induction options as [| [o v] rest IH]; intros st.
  - reflexivity.
  - cbn [map fst snd]. rewrite !process_options_step, option_kind_short.
    destruct (option_kind o); rewrite ?IH; reflexivity.
Qed.

(** X11: the long spelling of an option and its short spelling are
    interchangeable: replacing every long option by its short one
    changes nothing of what [main] does. *)
Theorem spelling_is_irrelevant
        (options : list (string * string)) (arguments : list string)
        (new_store : ProgramOpts -> Result PasswordStore) :
  main (Return (map (fun ov => (short_spelling (fst ov), snd ov)) options,
                arguments))
       new_store
  = main (Return (options, arguments)) new_store.
Proof.
  unfold main. f_equal.
  rewrite !main_parse_loop. cbv zeta.
  rewrite process_options_short. reflexivity.
Qed.

(** ** The store *)

Lemma loop_makes_no_store (options : list (string * string)) (st : Settings) :
  filter is_store_call (trace (process_options options st)) = [].
Proof.
  pose proof (loop_trace_events options st) as Hall.
  induction Hall as [| ev t Hev Hall IH]; [reflexivity |].
  simpl. destruct Hev as [-> | [-> | ->]]; exact IH.
Qed.

Lemma action_makes_no_store (a : Action) (program : PasswordStore)
      (arguments : list string) :
  filter is_store_call (trace (run_action a program arguments)) = [].
Proof.
  destruct a; cbn [run_action].
  - destruct (select_entry program arguments) as [name | e] eqn:Hsel.
    + rewrite (@show_matching_entry_return program arguments name Hsel).
      destruct (format_entry program name); reflexivity.
    + rewrite (@show_matching_entry_raise program arguments e Hsel).
      reflexivity.
  - unfold edit_matching_entry.
    destruct (select_entry program arguments) as [name | e].
    + rewrite bind_call_return. reflexivity.
    + reflexivity.
  - rewrite list_matching_entries_trace.
    destruct (smart_search program arguments); reflexivity.
Qed.

Lemma main_execute_store_calls
      (new_store : ProgramOpts -> Result PasswordStore)
      (st : Settings) (arguments : list string) :
  filter is_store_call (trace (main_execute new_store st arguments))
  = [NewStore (clipboard_enabled (program_opts st))
              (directory (program_opts st))].
Proof.
  destruct (new_store (program_opts st)) as [program | e] eqn:Hs.
  - rewrite (@main_execute_action new_store st arguments program Hs).
    cbv zeta.
    pose proof (action_makes_no_store (action st) program arguments) as Hrun.
    destruct (result (run_action (action st) program arguments)) as [u | e].
    + cbn [trace fst filter is_store_call]. rewrite Hrun. reflexivity.
    + destruct e; cbn [trace fst filter is_store_call];
        rewrite ?filter_app, Hrun; reflexivity.
  - unfold main_execute. rewrite Hs, bind_call_raise.
    destruct e; reflexivity.
Qed.

(** X12: [main] makes the password store at most once, and only when
    the whole command line was accepted: every option handled, no help
    option, and a keyword given unless the action is the list action.
    The store is then made with the [program_opts] the options left. *)
Theorem store_made_at_most_once
        (options : list (string * string)) (arguments : list string)
        (new_store : ProgramOpts -> Result PasswordStore) :
  let m := main (Return (options, arguments)) new_store in
  length (filter is_store_call (trace m)) <= 1
  /\ (forall c d,
         In (NewStore c d) (trace m) ->
         exists st,
           result (process_options options initial_settings) = Return (Next st)
           /\ (arguments <> [] \/ action st = ListMatchingEntries)
           /\ c = clipboard_enabled (program_opts st)
           /\ d = directory (program_opts st)).
Proof.
  intros m.
  assert (Hcalls :
            filter is_store_call (trace m) = []
            \/ exists st,
                result (process_options options initial_settings)
                = Return (Next st)
                /\ (arguments <> [] \/ action st = ListMatchingEntries)
                /\ filter is_store_call (trace m)
                   = [NewStore (clipboard_enabled (program_opts st))
                               (directory (program_opts st))]).
  { unfold m. rewrite main_unfold, main_parse_loop. cbv zeta.
    pose proof (loop_makes_no_store options initial_settings) as Hloop.
    destruct (result (process_options options initial_settings))
      as [[st |] | e] eqn:Hres.
    - destruct (negb (negb (Nat.eqb (length arguments) 0)
                      || Action_eqb (action st) ListMatchingEntries)) eqn:Hq.
      + left. cbn [result trace fst snd filter is_store_call].
        rewrite filter_app, Hloop. reflexivity.
      + right. exists st. split; [reflexivity | split].
        * apply negb_false_iff, orb_true_iff in Hq.
          destruct Hq as [Hq | Hq].
          -- left. destruct arguments; [discriminate Hq | discriminate].
          -- right. destruct (action st); try discriminate Hq. reflexivity.
        * cbn [result trace fst snd filter is_store_call].
          rewrite filter_app, Hloop. apply main_execute_store_calls.
    - left. cbn [result trace fst snd filter is_store_call]. exact Hloop.
    - left. destruct (is_Exception e);
        cbn [result trace fst snd filter is_store_call];
        rewrite ?filter_app, Hloop; reflexivity. }
  split.
  - destruct Hcalls as [-> | [st [_ [_ ->]]]]; simpl; lia.
  - intros c d Hin.
    assert (Hf : In (NewStore c d) (filter is_store_call (trace m))).
    { apply filter_In. split; [exact Hin | reflexivity]. }
    destruct Hcalls as [Hnone | [st [Hres [Hok Hone]]]].
    + rewrite Hnone in Hf. contradiction.
    + rewrite Hone in Hf. destruct Hf as [Hf | []].
      injection Hf as <- <-. exists st. repeat split; assumption.
Qed.

Lemma store_made_at_most_once_witness :
  let program := engine_store ["Personal/Zabbix"]%string 2 (scripted []) in
  let m := main (Return ([("-n", EmptyString)]%string, ["zabbix"%string]))
                (fun _ => Return program) in
  In (NewStore (Some false) None) (trace m)
  /\ exists st,
       result (process_options [("-n", EmptyString)]%string initial_settings)
       = Return (Next st)
       /\ (["zabbix"%string] <> [] \/ action st = ListMatchingEntries)
       /\ Some false = clipboard_enabled (program_opts st)
       /\ None = directory (program_opts st).
Proof.
  intros program m.
  assert (Hin : In (NewStore (Some false) None) (trace m))
    by (simpl; tauto).
  split; [exact Hin |].
  exact (proj2 (store_made_at_most_once
                  [("-n", EmptyString)]%string ["zabbix"%string]
                  (fun _ => Return program))
               (Some false) None Hin).
Defined.

(** ** Normal return *)

(** X13: [main] returns normally (exit status 0) in exactly three
    situations: a help option was reached; no keyword was given and the
    action is not the list action (the usage message is shown); or the
    store was made and the action ran to its end.  In every other case
    it ends with [sys.exit] or an exception. *)
Theorem main_returns_normally
        (options : list (string * string)) (arguments : list string)
        (new_store : ProgramOpts -> Result PasswordStore) :
  let loop := process_options options initial_settings in
  result (main (Return (options, arguments)) new_store) = Return tt
  <-> result loop = Return Returned
      \/ (exists st,
             result loop = Return (Next st)
             /\ arguments = [] /\ action st <> ListMatchingEntries)
      \/ (exists st program,
             result loop = Return (Next st)
             /\ (arguments <> [] \/ action st = ListMatchingEntries)
             /\ new_store (program_opts st) = Return program
             /\ result (run_action (action st) program arguments) = Return tt).
Proof.
  intros loop. unfold loop. split.
  - rewrite main_unfold, main_parse_loop. cbv zeta.
    destruct (result (process_options options initial_settings))
      as [[st |] | e] eqn:Hres.
    + destruct (negb (negb (Nat.eqb (length arguments) 0)
                      || Action_eqb (action st) ListMatchingEntries)) eqn:Hq.
      * intros _. right. left. exists st. split; [reflexivity |].
        apply negb_true_iff, orb_false_iff in Hq. destruct Hq as [Hq1 Hq2].
        split.
        -- destruct arguments; [reflexivity | discriminate Hq1].
        -- intros Ha. rewrite Ha in Hq2. discriminate Hq2.
      * cbn [result trace fst snd]. intros Hm. right. right.
        assert (Hok : arguments <> [] \/ action st = ListMatchingEntries).
        { apply negb_false_iff, orb_true_iff in Hq. destruct Hq as [Hq | Hq].
          - left. destruct arguments; [discriminate Hq | discriminate].
          - right. destruct (action st); try discriminate Hq. reflexivity. }
        destruct (new_store (program_opts st)) as [program | e] eqn:Hs.
        -- exists st, program. repeat split; try assumption.
           rewrite (@main_execute_action new_store st arguments program Hs) in Hm.
           cbv zeta in Hm.
           destruct (result (run_action (action st) program arguments))
             as [[] | e]; [reflexivity |].
           destruct e; discriminate Hm.
        -- unfold main_execute in Hm. rewrite Hs, bind_call_raise in Hm.
           destruct e; discriminate Hm.
    + intros _. left. reflexivity.
    + destruct (is_Exception e); discriminate.
  - intros [Hhelp | [[st [Hres [-> Hact]]] | [st [program [Hres [Hok [Hs Hrun]]]]]]].
    + rewrite main_unfold, main_parse_loop. cbv zeta. rewrite Hhelp.
      reflexivity.
    + rewrite (@main_empty_query options new_store st Hres Hact). reflexivity.
    + rewrite (@main_runs_action options arguments new_store st Hres Hok).
      rewrite (@main_execute_action new_store st arguments program Hs).
      cbv zeta. rewrite Hrun. reflexivity.
Qed.
